(** * ts-esm-migrate: the specifier resolver, the syntax visitor and the run
    driver of [src/index.mts], embedded in Rocq.

    Strings are [string] (one [ascii] per code unit), the File Index
    [visited] is a [gset string], the files on disk are a [gmap string string],
    and the two ambient variables [currentVisitingFile] and [hasUpdate] are
    threaded through a small state monad.  The TypeScript parser and printer,
    [prettier] and [JSON.parse] are external: they are the fields of the
    class [Toolchain], over which the run driver is stated. *)

From Stdlib Require Import Ascii.
From stdpp Require Import gmap strings list.

(** ** Strings: the methods of [String.prototype] the program calls *)

Module Str.

(** [s.startsWith(p)] *)
Fixpoint startsWith (s p : string) {struct p} : bool :=
  match p with
  | EmptyString => true
  | String c p' =>
      match s with
      | EmptyString => false
      | String d s' => if decide (d = c) then startsWith s' p' else false
      end
  end.

(** [s.endsWith(p)]: [p] is [s] itself or a suffix of the tail of [s]. *)
Fixpoint endsWith (s p : string) : bool :=
  if decide (s = p) then true
  else match s with
       | EmptyString => false
       | String _ s' => endsWith s' p
       end.

(** [s.replace(/pat/g, rep)] for a pattern that is a literal, non-empty text
    and a replacement without [$]: the text is scanned from the left; where
    the pattern starts, the replacement is emitted and the scan resumes after
    the match ([skip] counts the code units of the match still to pass). *)
Fixpoint replace_from (pat rep : string) (skip : nat) (s : string) : string :=
  match s with
  | EmptyString => EmptyString
  | String c s' =>
      match skip with
      | S k => replace_from pat rep k s'
      | O =>
          if startsWith s pat
          then rep +:+ replace_from pat rep (String.length pat - 1) s'
          else String c (replace_from pat rep 0 s')
      end
  end.

Definition replaceAll (pat rep s : string) : string := replace_from pat rep 0 s.

(** [s.includes(p)] *)
Fixpoint includes (s p : string) : bool :=
  if startsWith s p then true
  else match s with
       | EmptyString => false
       | String _ s' => includes s' p
       end.

(** [s] has no code unit [c]. *)
Fixpoint lacks (c : ascii) (s : string) : bool :=
  match s with
  | EmptyString => true
  | String d s' => if decide (d = c) then false else lacks c s'
  end.

End Str.

(** ** Paths: [join] of [node:path], POSIX flavour

    [node:path] is Node's library, not code of the repository.  [join]
    concatenates its non-empty arguments with [/] and normalises the result:
    empty and [.] segments are dropped, a [..] segment removes the segment
    before it (and is kept at the front of a relative path, dropped at the
    root of an absolute one), a trailing [/] is kept, and the empty result is
    [.] ([/] for an absolute path). *)

Module Path.

(** The segments of a path between its [/]. *)
Fixpoint split (s : string) : list string :=
  match s with
  | EmptyString => [EmptyString]
  | String c s' =>
      if decide (c = "/"%char) then EmptyString :: split s'
      else match split s' with
           | seg :: segs => String c seg :: segs
           | [] => [String c EmptyString]
           end
  end.

(** One segment met by [normalizeString]; [res] holds the segments kept so
    far, the last one first. *)
Definition segment (allowAboveRoot : bool) (res : list string) (seg : string)
  : list string :=
  if decide (seg = "") then res
  else if decide (seg = ".") then res
  else if decide (seg = "..") then
    match res with
    | top :: rest =>
        if decide (top = "..")
        then (if allowAboveRoot then ".." :: res else res)
        else rest
    | [] => if allowAboveRoot then [".."] else []
    end
  else seg :: res.

Definition normalizeString (path : string) (allowAboveRoot : bool) : string :=
  String.concat "/" (rev (fold_left (segment allowAboveRoot) (split path) [])).

Definition normalize (path : string) : string :=
  if decide (path = "") then "."
  else
    let isAbsolute := Str.startsWith path "/" in
    let trailingSeparator := Str.endsWith path "/" in
    let p := normalizeString path (negb isAbsolute) in
    if decide (p = "") then
      (if isAbsolute then "/" else if trailingSeparator then "./" else ".")
    else
      (if isAbsolute then "/" else "") +:+ p
        +:+ (if trailingSeparator then "/" else "").

Definition join (args : list string) : string :=
  match filter (λ arg, arg ≠ "") args with
  | [] => "."
  | parts => normalize (String.concat "/" parts)
  end.

End Path.

(** ** The syntax tree

    The node shapes the visitor tells apart, with the fields its [update...]
    calls pass along; every other kind of node is an [OtherNode] with its
    children in the order [ts.visitEachChild] visits them. *)

#[local] Set Warnings "-register-all".

Inductive Node : Type :=
| SourceFile (statements : list Node)
| ImportDeclaration (modifiers : list Node) (importClause : option Node)
    (moduleSpecifier : Node) (assertClause : option Node)
| ExportDeclaration (modifiers : list Node) (isTypeOnly : bool)
    (exportClause : option Node) (moduleSpecifier : option Node)
    (assertClause : option Node)
| CallExpression (expression : Node) (typeArguments : list Node)
    (arguments : list Node)
| ImportTypeNode (argument : Node) (assertions : option Node)
    (qualifier : option Node) (typeArguments : list Node) (isTypeOf : bool)
| LiteralTypeNode (literal : Node)
| StringLiteral (text : string)
| ImportKeyword
| OtherNode (kind : nat) (children : list Node).

(** [ts.isStringLiteral(node)] *)
Definition isStringLiteral (node : Node) : bool :=
  match node with StringLiteral _ => true | _ => false end.

(** ** Ambient state

    [values] is what [parseArgs] returned; [visited], [currentVisitingFile] and
    [hasUpdate] are the module-level variables of lines 38 to 42. *)

Record Values : Type := { jsx : bool; prettier : option string }.

Record Globals : Type := {
  visited : gset string;
  currentVisitingFile : string;
  hasUpdate : bool;
}.

Definition M (A : Type) : Type := Globals → A * Globals.

#[export] Instance M_ret : MRet M := λ A x g, (x, g).
#[export] Instance M_bind : MBind M :=
  λ A B f m g, let '(x, g') := m g in f x g'.

Definition get : M Globals := λ g, (g, g).

Definition set_hasUpdate (b : bool) : M unit :=
  λ g, (tt, {| visited := visited g;
               currentVisitingFile := currentVisitingFile g;
               hasUpdate := b |}).

Definition set_currentVisitingFile (path : string) : M unit :=
  λ g, (tt, {| visited := visited g;
               currentVisitingFile := path;
               hasUpdate := hasUpdate g |}).

(** [visited.has(p)] *)
Definition has (g : Globals) (p : string) : bool := bool_decide (p ∈ visited g).

(** ** The specifier resolver (lines 115 to 140) *)

Definition updateImportPath (values : Values) (node : option Node)
  : M (option Node) :=
  match node with
  | None => mret node
  | Some (StringLiteral spec) =>
      if negb (Str.startsWith spec ".") then mret node
      else if Str.endsWith spec ".js" then mret node
      else
        g ← get;
        let resolution := Path.join [currentVisitingFile g; "../"; spec] in
        if has g (resolution +:+ ".ts") || has g (resolution +:+ ".d.ts") then
          set_hasUpdate true;;
          mret (Some (StringLiteral (spec +:+ ".js")))
        else if has g (resolution +:+ ".tsx") then
          set_hasUpdate true;;
          mret (Some (StringLiteral
                        (spec +:+ (if jsx values then ".jsx" else ".js"))))
        else if has g (Path.join [resolution; "index.ts"])
                || has g (Path.join [resolution; "index.d.ts"]) then
          set_hasUpdate true;;
          mret (Some (StringLiteral (spec +:+ "/index.js")))
        else if has g (Path.join [resolution; "index.tsx"]) then
          set_hasUpdate true;;
          mret (Some (StringLiteral
                        (spec +:+ (if jsx values then "/index.jsx"
                                   else "/index.js"))))
        else mret node
  | Some _ => mret node
  end.

(** The overload for a node that is present: the result is present too. *)
Definition updateImportPathExpr (values : Values) (node : Node) : M Node :=
  r ← updateImportPath values (Some node); mret (default node r).

(** ** The syntax visitor (lines 43 to 89) *)

Section VisitEachChild.
Variable visitor : Node → M Node.

(** [ts.visitNodes(nodes, visitor)] *)
Fixpoint visitNodes (nodes : list Node) : M (list Node) :=
  match nodes with
  | [] => mret []
  | n :: ns => n' ← visitor n; ns' ← visitNodes ns; mret (n' :: ns')
  end.

(** [ts.visitNode(node, visitor)] for a child that may be absent *)
Definition visitNode (node : option Node) : M (option Node) :=
  match node with
  | None => mret None
  | Some n => n' ← visitor n; mret (Some n')
  end.

(** [ts.visitEachChild(node, visitor, context)]: the children are visited in
    order and the node is rebuilt around the results. *)
Definition visitEachChild (node : Node) : M Node :=
  match node with
  | SourceFile statements =>
      statements' ← visitNodes statements;
      mret (SourceFile statements')
  | ImportDeclaration modifiers importClause moduleSpecifier assertClause =>
      modifiers' ← visitNodes modifiers;
      importClause' ← visitNode importClause;
      moduleSpecifier' ← visitor moduleSpecifier;
      assertClause' ← visitNode assertClause;
      mret (ImportDeclaration modifiers' importClause' moduleSpecifier'
              assertClause')
  | ExportDeclaration modifiers isTypeOnly exportClause moduleSpecifier
      assertClause =>
      modifiers' ← visitNodes modifiers;
      exportClause' ← visitNode exportClause;
      moduleSpecifier' ← visitNode moduleSpecifier;
      assertClause' ← visitNode assertClause;
      mret (ExportDeclaration modifiers' isTypeOnly exportClause'
              moduleSpecifier' assertClause')
  | CallExpression expression typeArguments arguments =>
      expression' ← visitor expression;
      typeArguments' ← visitNodes typeArguments;
      arguments' ← visitNodes arguments;
      mret (CallExpression expression' typeArguments' arguments')
  | ImportTypeNode argument assertions qualifier typeArguments isTypeOf =>
      argument' ← visitor argument;
      assertions' ← visitNode assertions;
      qualifier' ← visitNode qualifier;
      typeArguments' ← visitNodes typeArguments;
      mret (ImportTypeNode argument' assertions' qualifier' typeArguments'
              isTypeOf)
  | LiteralTypeNode literal =>
      literal' ← visitor literal;
      mret (LiteralTypeNode literal')
  | StringLiteral text => mret (StringLiteral text)
  | ImportKeyword => mret ImportKeyword
  | OtherNode kind children =>
      children' ← visitNodes children;
      mret (OtherNode kind children')
  end.
End VisitEachChild.

Fixpoint visit (values : Values) (node : Node) {struct node} : M Node :=
  match node with
  | SourceFile _ => visitEachChild (visit values) node
  | ImportDeclaration modifiers importClause moduleSpecifier assertClause =>
      spec ← updateImportPathExpr values moduleSpecifier;
      mret (ImportDeclaration modifiers importClause spec assertClause)
  | ExportDeclaration modifiers isTypeOnly exportClause moduleSpecifier
      assertClause =>
      spec ← updateImportPath values moduleSpecifier;
      mret (ExportDeclaration modifiers isTypeOnly exportClause spec
              assertClause)
  | CallExpression ImportKeyword typeArguments (arg0 :: rest) =>
      arg ← updateImportPathExpr values arg0;
      mret (CallExpression ImportKeyword typeArguments (arg :: rest))
  | ImportTypeNode (LiteralTypeNode (StringLiteral text)) assertions qualifier
      typeArguments isTypeOf =>
      lit ← updateImportPathExpr values (StringLiteral text);
      mret (ImportTypeNode (LiteralTypeNode lit) assertions qualifier
              typeArguments isTypeOf)
  | _ => visitEachChild (visit values) node
  end.

(** ** The process and its disk *)

Inductive ScriptKind : Type := TS | TSX.

Inductive Event : Type :=
| ConsoleLog (line : string)
| Readdir (folder : string)
| ReadFile (path : string)
| WriteFile (path data : string).

#[export] Instance Event_eq_dec : EqDecision Event.
Proof. solve_decision. Defined.

Inductive Status : Type :=
| Exit (code : nat)
| Uncaught.

(** An entry of [readdir(folder, { withFileTypes: true })]. *)
Record Dirent : Type := { name : string; isFile : bool; isDirectory : bool }.

Record Process : Type := {
  cwd : string;
  dirs : gmap string (list Dirent);
  files : gmap string string;
  trace : list Event;
}.

Definition emit (e : Event) (p : Process) : Process :=
  {| cwd := cwd p; dirs := dirs p; files := files p; trace := trace p ++ [e] |}.

Definition emits (es : list Event) (p : Process) : Process :=
  {| cwd := cwd p; dirs := dirs p; files := files p; trace := trace p ++ es |}.

(** [writeFile(path, data)] *)
Definition writeFile (path data : string) (p : Process) : Process :=
  {| cwd := cwd p; dirs := dirs p; files := <[path := data]> (files p);
     trace := trace p ++ [WriteFile path data] |}.

Definition LF : string := String "010"%char EmptyString.

(** The block comment that stands for a blank line between parse and print. *)
Definition sentinel : string := "/** THIS_IS_A_NEWLINE **/".

(** [file.replace(/\n\n/g, '\n/** THIS_IS_A_NEWLINE **/')] (line 96) *)
Definition markBlankLines (file : string) : string :=
  Str.replaceAll (LF +:+ LF) (LF +:+ sentinel) file.

(** [.replace(/\/\*\* THIS_IS_A_NEWLINE \*\*\//g, '\n')] (line 105) *)
Definition restoreBlankLines (printed : string) : string :=
  Str.replaceAll sentinel LF printed.

(** ** File discovery (lines 27 to 39)

    [walk] reads directories by path, so the model bounds the depth of the
    descent by [fuel]; the result is the [readdir] calls made and the paths
    yielded, or [None] where a [readdir] is rejected or the bound is hit. *)

Fixpoint walk (fuel : nat) (disk : gmap string (list Dirent)) (folder : string)
  : list Event * option (list string) :=
  match fuel with
  | O => ([], None)
  | S fuel' =>
      match disk !! folder with
      | None => ([Readdir folder], None)
      | Some items =>
          foldl
            (λ acc item,
               match acc with
               | (evs, None) => acc
               | (evs, Some paths) =>
                   if isFile item then
                     if Str.endsWith (name item) ".ts"
                        || Str.endsWith (name item) ".tsx"
                     then (evs, Some (paths ++ [Path.join [folder; name item]]))
                     else acc
                   else if isDirectory item then
                     if bool_decide (name item ≠ "node_modules") then
                       let '(evs', r) :=
                         walk fuel' disk (Path.join [folder; name item]) in
                       (evs ++ evs', (λ sub, paths ++ sub) <$> r)
                     else acc
                   else acc
               end)
            ([Readdir folder], Some []) items
      end
  end.

(** ** The run driver (lines 7 to 25 and 90 to 113) *)

(** What the program takes from [typescript], [prettier] and the runtime:
    - [createSourceFile fileName text kind] is
      [ts.createSourceFile(fileName, text, ESNext, false, kind)];
    - [printFile] is [printer.printFile];
    - [JSON_parse] is [JSON.parse], [None] where it throws;
    - [truthy] tells whether a parsed value is truthy, which is what
      [if (prettierConfig)] tests on line 106;
    - [prettier_format text config] is
      [prettier.format(text, { ...config, parser: 'typescript' })], [None]
      where it throws. *)
Class Toolchain : Type := {
  createSourceFile : string → string → ScriptKind → Node;
  printFile : Node → string;
  Json : Type;
  JSON_parse : string → option Json;
  truthy : Json → bool;
  prettier_format : string → Json → option string;
}.

Section Run.
Context {toolchain : Toolchain}.

(** The syntax tree of a file as the transformer receives it. *)
Definition parseFile (path file : string) : Node :=
  createSourceFile path (markBlankLines file)
    (if Str.endsWith path "x" then TSX else TS).

(** One callback of the [map] of line 92, from the moment its [readFile]
    settles: nothing else runs between [hasUpdate = false] and the test of
    [hasUpdate], and what is written depends only on what was computed before
    any later [await].  [prettierConfig] is [Some config] for a truthy
    configuration and [None] otherwise.  The trace lists the [WriteFile] of a
    callback right after its [ReadFile]; in the program the write is issued
    later, with a formatter after the [await] of line 107, so that events of
    other callbacks may stand between the two.  [WriteFile] records the call
    and [files] the content once the write has succeeded; a write that the
    system rejects is not modelled. *)
Definition pipeline (values : Values) (prettierConfig : option Json)
    (path : string) (s : Globals * Process) : Globals * Process :=
  let '(g, p) := s in
  let p := emit (ReadFile path) p in
  match files p !! path with
  | None => (g, p)
  | Some file =>
      let source := parseFile path file in
      let '(_, g) := set_hasUpdate false g in
      let '(_, g) := set_currentVisitingFile path g in
      let '(result, g) := visit values source g in
      if negb (hasUpdate g) then (g, p)
      else
        let printed := restoreBlankLines (printFile result) in
        match prettierConfig with
        | Some config =>
            match prettier_format printed config with
            | Some formatted => (g, writeFile path formatted p)
            | None => (g, p)
            end
        | None => (g, writeFile path printed p)
        end
  end.

(** [Promise.allSettled]: the callbacks in the order [order] in which their
    reads settle.  Every callback reads and writes its own path only, so the
    files a run leaves do not depend on how the callbacks interleave. *)
Definition runAll (values : Values) (prettierConfig : option Json)
    (order : list string) (s : Globals * Process) : Globals * Process :=
  foldl (λ s path, pipeline values prettierConfig path s) s order.

Definition usage : string := "Usage: ts-esm-migrate <folder>".

(** The rest of the module once [prettierConfig] is known. *)
Definition migrate (fuel : nat) (values : Values) (workingFolder : string)
    (prettierConfig : option Json) (p : Process) : Status * Process :=
  let p := emit (ConsoleLog ("Working on " +:+ workingFolder)) p in
  let '(reads, found) := walk fuel (dirs p) workingFolder in
  let p := emits reads p in
  match found with
  | None => (Uncaught, p)
  | Some paths =>
      let index : gset string := list_to_set paths in
      let g := {| visited := index; currentVisitingFile := "";
                  hasUpdate := false |} in
      (Exit 0, (runAll values prettierConfig (elements index) (g, p)).2)
  end.

Definition main (fuel : nat) (positionals : list string) (values : Values)
    (p : Process) : Status * Process :=
  match positionals with
  | [folder] =>
      let workingFolder := Path.join [cwd p; folder] in
      match prettier values with
      | Some configPath =>
          if decide (configPath = "") then
            migrate fuel values workingFolder None p
          else
            let p := emit (ReadFile (Path.join [cwd p; configPath])) p in
            match files p !! Path.join [cwd p; configPath] with
            | None => (Uncaught, p)
            | Some text =>
                match JSON_parse text with
                | None => (Uncaught, p)
                | Some config =>
                    migrate fuel values workingFolder
                      (if truthy config then Some config else None) p
                end
            end
      | None => migrate fuel values workingFolder None p
      end
  | _ => (Exit 0, emit (ConsoleLog usage) p)
  end.

End Run.

(** ** Vocabulary of the statements *)

(** [hasUpdate = true] *)
Definition touched (g : Globals) : Globals := (set_hasUpdate true g).2.

(** The File Index forms of a candidate path, in the order of the tests, each
    with the paths looked up and the suffix appended on a match. *)
Definition forms (values : Values) (resolution : string)
  : list (list string * string) :=
  [ ([resolution +:+ ".ts"; resolution +:+ ".d.ts"], ".js");
    ([resolution +:+ ".tsx"], if jsx values then ".jsx" else ".js");
    ([Path.join [resolution; "index.ts"]; Path.join [resolution; "index.d.ts"]],
     "/index.js");
    ([Path.join [resolution; "index.tsx"]],
     if jsx values then "/index.jsx" else "/index.js") ].

(** The suffix of the first form one of whose paths is in the index. *)
Fixpoint firstMatch (index : gset string) (fs : list (list string * string))
  : option string :=
  match fs with
  | [] => None
  | (paths, suffix) :: fs' =>
      if existsb (λ p, bool_decide (p ∈ index)) paths then Some suffix
      else firstMatch index fs'
  end.

(** What one step of the visitor may do to its subject [x] and to the state:
    the File Index and the current file stay, and either the subject is
    returned as it is and [hasUpdate] keeps its value, or the subject changes
    and [hasUpdate] is set. *)
Definition frame {A : Type} (x : A) (g : Globals) (r : A * Globals) : Prop :=
  visited r.2 = visited g
  ∧ currentVisitingFile r.2 = currentVisitingFile g
  ∧ ((r.1 = x ∧ hasUpdate r.2 = hasUpdate g)
     ∨ (r.1 ≠ x ∧ hasUpdate r.2 = true)).

(** A file name as [readdir] returns it: not empty, not [.] or [..], and
    without [/]. *)
Definition plain (n : string) : Prop :=
  n ≠ "" ∧ n ≠ "." ∧ n ≠ ".." ∧ Str.lacks "/" n = true.

(** The state in which the transformer starts on the file [path]. *)
Definition globals (index : gset string) (path : string) : Globals :=
  {| visited := index; currentVisitingFile := path; hasUpdate := false |}.

Section RunVocabulary.
Context {toolchain : Toolchain}.

(** What the transformer makes of the file [path] with the text [file]:
    the new tree and the state after the visit. *)
Definition transformed (values : Values) (index : gset string)
    (path file : string) : Node * Globals :=
  visit values (parseFile path file) (globals index path).

(** The data written to [path], if any is. *)
Definition output (values : Values) (prettierConfig : option Json)
    (index : gset string) (path file : string) : option string :=
  let r := transformed values index path file in
  if hasUpdate r.2 then
    let printed := restoreBlankLines (printFile r.1) in
    match prettierConfig with
    | Some config => prettier_format printed config
    | None => Some printed
    end
  else None.

(** The events of one callback on the disk [disk]. *)
Definition events (values : Values) (prettierConfig : option Json)
    (index : gset string) (disk : gmap string string) (path : string)
  : list Event :=
  ReadFile path ::
    match disk !! path with
    | Some file =>
        match output values prettierConfig index path file with
        | Some data => [WriteFile path data]
        | None => []
        end
    | None => []
    end.

(** The content of [path] after its callback. *)
Definition settled (values : Values) (prettierConfig : option Json)
    (index : gset string) (disk : gmap string string) (path : string)
  : option string :=
  file ← disk !! path;
  Some (default file (output values prettierConfig index path file)).
End RunVocabulary.

(** Two nodes of the same kind. *)
Definition sameKind (a b : Node) : Prop :=
  match a, b with
  | SourceFile _, SourceFile _
  | ImportDeclaration _ _ _ _, ImportDeclaration _ _ _ _
  | ExportDeclaration _ _ _ _ _, ExportDeclaration _ _ _ _ _
  | CallExpression _ _ _, CallExpression _ _ _
  | ImportTypeNode _ _ _ _ _, ImportTypeNode _ _ _ _ _
  | LiteralTypeNode _, LiteralTypeNode _
  | StringLiteral _, StringLiteral _
  | ImportKeyword, ImportKeyword => True
  | OtherNode k _, OtherNode k' _ => k = k'
  | _, _ => False
  end.

(** The test of line 66: an [import(...)] call with a first argument. *)
Definition isImportCall (expression : Node) (arguments : list Node) : bool :=
  match expression, arguments with
  | ImportKeyword, _ :: _ => true
  | _, _ => false
  end.

(** The test of lines 74 and 75 on the argument of an import type. *)
Definition isLiteralArgument (argument : Node) : bool :=
  match argument with
  | LiteralTypeNode (StringLiteral _) => true
  | _ => false
  end.

(** A second visit, of what the first visit of [node] returned and for the
    same file and index, changes nothing. *)
Definition settles (values : Values) (node : Node) : Prop :=
  ∀ g g',
    visited g' = visited g →
    currentVisitingFile g' = currentVisitingFile g →
    visit values (visit values node g).1 g' = ((visit values node g).1, g').

(** ** Sample inputs *)

Definition g0 : Globals :=
  {| visited := {[ "/proj/src/a.ts"; "/proj/src/b.tsx"; "/proj/src/c/index.ts";
                   "/proj/src/m.ts" ]};
     currentVisitingFile := "/proj/src/m.ts";
     hasUpdate := false |}.

Definition v0 : Values := {| jsx := false; prettier := None |}.

Definition vjsx : Values := {| jsx := true; prettier := None |}.

(** [a.ts] next to a file whose name ends in [.js.ts]. *)
Definition g_js : Globals :=
  globals {[ "/proj/src/a.ts"; "/proj/src/a.js.ts"; "/proj/src/m.ts" ]}
    "/proj/src/m.ts".

(** [a.tsx] next to a file named [a.jsx.ts]. *)
Definition g_jsx : Globals :=
  globals {[ "/proj/src/a.tsx"; "/proj/src/a.jsx.ts"; "/proj/src/m.ts" ]}
    "/proj/src/m.ts".

(** Both the file form and the directory form of [./a]. *)
Definition g_both : Globals :=
  globals {[ "/proj/src/a.ts"; "/proj/src/a/index.ts"; "/proj/src/m.ts" ]}
    "/proj/src/m.ts".

(** Only the directory form of [./a]. *)
Definition g_dir : Globals :=
  globals {[ "/proj/src/a/index.ts"; "/proj/src/m.ts" ]} "/proj/src/m.ts".

(** Only [a.tsx]. *)
Definition g_tsx : Globals :=
  globals {[ "/proj/src/a.tsx"; "/proj/src/m.ts" ]} "/proj/src/m.ts".

(** Only [a/index.tsx]. *)
Definition g_dirtsx : Globals :=
  globals {[ "/proj/src/a/index.tsx"; "/proj/src/m.ts" ]} "/proj/src/m.ts".

(** A toy toolchain for the sample runs: the text of a file is the specifier
    of its one import declaration. *)
Definition toy : Toolchain := {|
  createSourceFile _ text _ :=
    SourceFile [ImportDeclaration [] None (StringLiteral text) None];
  printFile node :=
    match node with
    | SourceFile [ImportDeclaration _ _ (StringLiteral text) _] => text
    | _ => ""
    end;
  Json := unit;
  JSON_parse _ := Some tt;
  truthy _ := true;
  prettier_format text _ := Some text;
|}.

Definition fileEntry (n : string) : Dirent :=
  {| name := n; isFile := true; isDirectory := false |}.
Definition dirEntry (n : string) : Dirent :=
  {| name := n; isFile := false; isDirectory := true |}.

(** [/proj/src] holds [m.ts], which imports [./a], and [a.ts], which imports
    [react]; the vendor directory is not read. *)
Definition proc0 : Process :=
  {| cwd := "/proj";
     dirs := {[ "/proj/src" := [fileEntry "m.ts"; fileEntry "a.ts";
                                 fileEntry "notes.md";
                                 dirEntry "node_modules"] ]};
     files := {[ "/proj/src/m.ts" := "./a"; "/proj/src/a.ts" := "react" ]};
     trace := [] |}.

(** [/proj/src] holds [m.ts], which imports [./a], next to [a.tsx] and
    [a.jsx.ts]. *)
Definition proc_jsx : Process :=
  {| cwd := "/proj";
     dirs := {[ "/proj/src" := [fileEntry "m.ts"; fileEntry "a.tsx";
                                 fileEntry "a.jsx.ts"] ]};
     files := {[ "/proj/src/m.ts" := "./a"; "/proj/src/a.tsx" := "react";
                 "/proj/src/a.jsx.ts" := "react" ]};
     trace := [] |}.

Definition index0 : gset string := {[ "/proj/src/m.ts"; "/proj/src/a.ts" ]}.

Definition order0 : list string := ["/proj/src/m.ts"; "/proj/src/a.ts"].

(** Two statements with one blank line between them. *)
Definition blank_line_sample : string :=
  "import a from './a'" +:+ LF +:+ LF +:+ "export const x = 1" +:+ LF.

(** ** Counting the events of a run *)

(** [e] is the read of the file [q]. *)
Definition isReadOf (q : string) (e : Event) : bool :=
  match e with
  | ReadFile path => bool_decide (path = q)
  | _ => false
  end.

(** [e] is a write to the file [q]. *)
Definition isWriteTo (q : string) (e : Event) : bool :=
  match e with
  | WriteFile path _ => bool_decide (path = q)
  | _ => false
  end.

(** The number of events of [evs] that satisfy [f]. *)
Definition count (f : Event → bool) (evs : list Event) : nat :=
  length (List.filter f evs).

(** ** Shape of a visited tree *)

(** The suffixes the resolver appends. *)
Definition suffixes : list string := [".js"; ".jsx"; "/index.js"; "/index.jsx"].

(** What the resolver may return for the node [n] at a specifier position:
    [n] itself, or, for a string literal, its text followed by one suffix. *)
Definition Appended (n n' : Node) : Prop :=
  n' = n
  ∨ ∃ text suffix,
      n = StringLiteral text ∧ suffix ∈ suffixes
      ∧ n' = StringLiteral (text +:+ suffix).

(** [b] is [a] with a suffix appended to some specifiers: the same nodes in
    the same places, nothing added, removed or reordered, and a difference
    only at the module specifier of an import or export declaration, at the
    first argument of an [import()] call, and at the literal of an import
    type.  Whatever the visitor does not descend into (modifiers, clauses,
    the other arguments and the type arguments of an [import()] call, what
    stands beside the literal of an import type, a string literal anywhere
    else) is the same in [a] and [b]. *)
Inductive Extends : Node → Node → Prop :=
| Extends_refl (n : Node) : Extends n n
| Extends_SourceFile (l l' : list Node) :
    Forall2 Extends l l' → Extends (SourceFile l) (SourceFile l')
| Extends_ImportDeclaration m ic (ms ms' : Node) ac :
    Appended ms ms' →
    Extends (ImportDeclaration m ic ms ac) (ImportDeclaration m ic ms' ac)
| Extends_ExportDeclaration m ty ec (ms ms' : Node) ac :
    Appended ms ms' →
    Extends (ExportDeclaration m ty ec (Some ms) ac)
      (ExportDeclaration m ty ec (Some ms') ac)
| Extends_importCall (ta : list Node) (arg0 arg0' : Node) (rest : list Node) :
    Appended arg0 arg0' →
    Extends (CallExpression ImportKeyword ta (arg0 :: rest))
      (CallExpression ImportKeyword ta (arg0' :: rest))
| Extends_CallExpression (e e' : Node) (ta ta' args args' : list Node) :
    isImportCall e args = false →
    Extends e e' → Forall2 Extends ta ta' → Forall2 Extends args args' →
    Extends (CallExpression e ta args) (CallExpression e' ta' args')
| Extends_importType (text : string) (lit' : Node) (asr q : option Node)
    (ta : list Node) ty :
    Appended (StringLiteral text) lit' →
    Extends (ImportTypeNode (LiteralTypeNode (StringLiteral text)) asr q ta ty)
      (ImportTypeNode (LiteralTypeNode lit') asr q ta ty)
| Extends_ImportTypeNode (a a' : Node) (asr asr' q q' : option Node)
    (ta ta' : list Node) ty :
    isLiteralArgument a = false →
    Extends a a' → option_Forall2 Extends asr asr' →
    option_Forall2 Extends q q' → Forall2 Extends ta ta' →
    Extends (ImportTypeNode a asr q ta ty) (ImportTypeNode a' asr' q' ta' ty)
| Extends_LiteralTypeNode (l l' : Node) :
    Extends l l' → Extends (LiteralTypeNode l) (LiteralTypeNode l')
| Extends_OtherNode kind (l l' : list Node) :
    Forall2 Extends l l' → Extends (OtherNode kind l) (OtherNode kind l').

(** A tree with imports of every shape, for the sample visits. *)
Definition tree0 : Node :=
  SourceFile
    [ ImportDeclaration [] None (StringLiteral "./a") None;
      ExportDeclaration [] false None (Some (StringLiteral "./b")) None;
      ExportDeclaration [] false None None None;
      OtherNode 0 [CallExpression ImportKeyword [] [StringLiteral "./c"]];
      OtherNode 1 [ImportTypeNode (LiteralTypeNode (StringLiteral "./a"))
                     None None [] false];
      ImportDeclaration [] None (StringLiteral "react") None ].

(** ** Vocabulary of file discovery *)

(** The folders under [root] that are reached through directory entries, none
    of them named [node_modules]. *)
Inductive Reached (disk : gmap string (list Dirent)) (root : string)
  : string → Prop :=
| Reached_root : Reached disk root root
| Reached_child (folder : string) (items : list Dirent) (item : Dirent) :
    Reached disk root folder →
    disk !! folder = Some items → item ∈ items →
    isFile item = false → isDirectory item = true →
    name item ≠ "node_modules" →
    Reached disk root (Path.join [folder; name item]).

(** The paths of the file entries named [*.ts] or [*.tsx] in the reached
    folders. *)
Definition Eligible (disk : gmap string (list Dirent)) (root path : string)
  : Prop :=
  ∃ folder items item,
    Reached disk root folder
    ∧ disk !! folder = Some items ∧ item ∈ items
    ∧ isFile item = true
    ∧ (Str.endsWith (name item) ".ts" = true
       ∨ Str.endsWith (name item) ".tsx" = true)
    ∧ path = Path.join [folder; name item].

(** Every entry of every directory has a name as [readdir] returns them. *)
Definition plainNames (disk : gmap string (list Dirent)) : Prop :=
  ∀ folder items item,
    disk !! folder = Some items → item ∈ items → plain (name item).

(** What a walk has done so far: it has read reached folders only, and what
    it has yielded is eligible. *)
Definition walked (disk : gmap string (list Dirent)) (root : string)
    (acc : list Event * option (list string)) : Prop :=
  (∀ e, e ∈ acc.1 → ∃ folder, e = Readdir folder ∧ Reached disk root folder)
  ∧ (∀ paths, acc.2 = Some paths → ∀ p, p ∈ paths → Eligible disk root p).

(** [/proj/src] with a sub-folder and a vendor directory that holds a
    TypeScript file. *)
Definition disk_tree : gmap string (list Dirent) :=
  {[ "/proj/src" := [fileEntry "m.ts"; dirEntry "lib"; dirEntry "node_modules";
                     {| name := "link"; isFile := false; isDirectory := false |}];
     "/proj/src/lib" := [fileEntry "b.tsx"; fileEntry "c.js"];
     "/proj/src/node_modules" := [fileEntry "x.ts"] ]}.

(** ** Induction on the nodes the visitor descends into *)

Section NodeInduction.
Variable P : Node → Prop.
Hypothesis HSourceFile :
  ∀ statements, Forall P statements → P (SourceFile statements).
Hypothesis HImportDeclaration :
  ∀ m ic ms ac, P (ImportDeclaration m ic ms ac).
Hypothesis HExportDeclaration :
  ∀ m ty ec ms ac, P (ExportDeclaration m ty ec ms ac).
Hypothesis HCallExpression :
  ∀ e ta args, P e → Forall P ta → Forall P args → P (CallExpression e ta args).
Hypothesis HImportTypeNode :
  ∀ a asr q ta ty,
    P a → from_option P True asr → from_option P True q → Forall P ta →
    P (ImportTypeNode a asr q ta ty).
Hypothesis HLiteralTypeNode : ∀ l, P l → P (LiteralTypeNode l).
Hypothesis HStringLiteral : ∀ text, P (StringLiteral text).
Hypothesis HImportKeyword : P ImportKeyword.
Hypothesis HOtherNode : ∀ kind children, Forall P children → P (OtherNode kind children).

Fixpoint Node_visit_ind (n : Node) : P n :=
  let all :=
    fix all (l : list Node) : Forall P l :=
      match l with
      | [] => List.Forall_nil P
      | x :: xs => @List.Forall_cons Node P x xs (Node_visit_ind x) (all xs)
      end in
  let opt (o : option Node) : from_option P True o :=
    match o with
    | Some m => Node_visit_ind m
    | None => I
    end in
  match n with
  | SourceFile statements => HSourceFile statements (all statements)
  | ImportDeclaration m ic ms ac => HImportDeclaration m ic ms ac
  | ExportDeclaration m ty ec ms ac => HExportDeclaration m ty ec ms ac
  | CallExpression e ta args =>
      HCallExpression e ta args (Node_visit_ind e) (all ta) (all args)
  | ImportTypeNode a asr q ta ty =>
      HImportTypeNode a asr q ta ty (Node_visit_ind a) (opt asr) (opt q) (all ta)
  | LiteralTypeNode l => HLiteralTypeNode l (Node_visit_ind l)
  | StringLiteral text => HStringLiteral text
  | ImportKeyword => HImportKeyword
  | OtherNode kind children => HOtherNode kind children (all children)
  end.
End NodeInduction.

(** * Properties *)

(** ** Sample runs *)

Example join_file_up : Path.join ["/proj/src/m.ts"; "../"; "./a"] = "/proj/src/a".
Proof. reflexivity. Qed.
Example join_parent : Path.join ["/proj/src/m.ts"; "../"; "../lib/b"] = "/proj/lib/b".
Proof. reflexivity. Qed.
Example join_index : Path.join ["/proj/src/a"; "index.ts"] = "/proj/src/a/index.ts".
Proof. reflexivity. Qed.
Example join_trailing : Path.join ["/proj/src/m.ts"; "../"; "./a/"] = "/proj/src/a/".
Proof. reflexivity. Qed.
Example join_root : Path.join ["/m.ts"; "../"; ".."] = "/".
Proof. reflexivity. Qed.
Example join_relative : Path.join ["m.ts"; "../"; "../x"] = "../x".
Proof. reflexivity. Qed.

Example visit_sample :
  visit v0 (SourceFile
    [ ImportDeclaration [] None (StringLiteral "./a") None;
      ExportDeclaration [] false None (Some (StringLiteral "./b")) None;
      ExportDeclaration [] false None None None;
      OtherNode 0 [CallExpression ImportKeyword [] [StringLiteral "./c"]];
      ImportDeclaration [] None (StringLiteral "react") None ]) g0
  = (SourceFile
    [ ImportDeclaration [] None (StringLiteral "./a.js") None;
      ExportDeclaration [] false None (Some (StringLiteral "./b.js")) None;
      ExportDeclaration [] false None None None;
      OtherNode 0 [CallExpression ImportKeyword [] [StringLiteral "./c/index.js"]];
      ImportDeclaration [] None (StringLiteral "react") None ],
     {| visited := visited g0; currentVisitingFile := "/proj/src/m.ts";
        hasUpdate := true |}).
Proof. vm_compute. reflexivity. Qed.

(** ** Strings *)

Lemma app_String (c : ascii) (s t : string) :
  String c s +:+ t = String c (s +:+ t).
Proof. reflexivity. Qed.

Lemma app_empty_l (s : string) : "" +:+ s = s.
Proof. reflexivity. Qed.

Lemma app_empty_r (s : string) : s +:+ "" = s.
Proof. induction s as [|c s IH]; [done|]. by rewrite app_String, IH. Qed.

Lemma app_assoc_str (s t u : string) : (s +:+ t) +:+ u = s +:+ (t +:+ u).
Proof. induction s as [|c s IH]; [done|]. by rewrite !app_String, IH. Qed.

Lemma length_app_str (s t : string) :
  String.length (s +:+ t) = String.length s + String.length t.
Proof.
  induction s as [|c s IH]; [done|]. rewrite app_String. simpl. by rewrite IH.
Qed.

Lemma app_neq_self (s t : string) : t ≠ "" → s +:+ t ≠ s.
Proof.
  intros Ht Heq. apply (f_equal String.length) in Heq.
  rewrite length_app_str in Heq. destruct t; [done|]. simpl in Heq. lia.
Qed.

Lemma startsWith_app (p s : string) : Str.startsWith (p +:+ s) p = true.
Proof.
  induction p as [|c p IH]; [reflexivity|].
  rewrite app_String. simpl. by rewrite decide_True.
Qed.

Lemma startsWith_spec (s p : string) :
  Str.startsWith s p = true ↔ ∃ r, s = p +:+ r.
Proof.
  split.
  - revert s. induction p as [|c p IH]; intros s H; [by exists s|].
    destruct s as [|d s]; [done|]. simpl in H. case_decide; [|done]. subst d.
    destruct (IH _ H) as [r ->]. by exists r.
  - intros [r ->]. apply startsWith_app.
Qed.

Lemma endsWith_unfold (s p : string) :
  Str.endsWith s p =
    if decide (s = p) then true
    else match s with
         | EmptyString => false
         | String _ s' => Str.endsWith s' p
         end.
Proof. destruct s; reflexivity. Qed.

Lemma endsWith_app (q p : string) : Str.endsWith (q +:+ p) p = true.
Proof.
  induction q as [|c q IH]; rewrite endsWith_unfold.
  - by rewrite app_empty_l, decide_True.
  - rewrite app_String. by case_decide.
Qed.

Lemma endsWith_spec (s p : string) :
  Str.endsWith s p = true ↔ ∃ q, s = q +:+ p.
Proof.
  split.
  - induction s as [|c s IH]; rewrite endsWith_unfold;
      destruct (decide _) as [<-|Hne]; intros H; try done.
    + by exists "".
    + by exists "".
    + destruct (IH H) as [q ->]. by exists (String c q).
  - intros [q ->]. apply endsWith_app.
Qed.

(** ** Paths: files of one directory resolve alike *)

Lemma split_nonempty (s : string) : Path.split s ≠ [].
Proof.
  destruct s as [|c s]; [done|]. simpl.
  destruct (decide _); [done|]. by destruct (Path.split s).
Qed.

Lemma split_app_slash (a b : string) :
  Path.split (a +:+ "/" +:+ b) = Path.split a ++ Path.split b.
Proof.
  induction a as [|c a IH]; [reflexivity|].
  rewrite app_String. simpl. destruct (decide _); [by rewrite IH|].
  rewrite IH. pose proof (split_nonempty a). by destruct (Path.split a).
Qed.

Lemma split_lacks (n : string) : Str.lacks "/" n = true → Path.split n = [n].
Proof.
  induction n as [|c n IH]; [done|]. simpl.
  destruct (decide _); [done|]. intros H. by rewrite (IH H).
Qed.

Lemma segment_plain_up (allow : bool) (res : list string) (n : string) :
  plain n →
  Path.segment allow (Path.segment allow (Path.segment allow res n) "..") "" = res.
Proof.
  intros (H1 & H2 & H3 & _).
  assert (Path.segment allow res n = n :: res) as ->.
  { unfold Path.segment. by rewrite !decide_False by done. }
  assert (Path.segment allow (n :: res) ".." = res) as ->.
  { unfold Path.segment. simpl. by rewrite decide_False by done. }
  reflexivity.
Qed.

(** The segments kept of [dir/n/..//spec] are those of [dir] followed by those
    of [spec]. *)
Lemma normalizeString_sibling (dir n spec : string) (allow : bool) :
  plain n →
  Path.normalizeString (dir +:+ "/" +:+ n +:+ "/" +:+ "../" +:+ "/" +:+ spec) allow
  = String.concat "/"
      (rev (fold_left (Path.segment allow) (Path.split spec)
              (fold_left (Path.segment allow) (Path.split dir) []))).
Proof.
  intros Hn. unfold Path.normalizeString.
  change ("../" +:+ "/" +:+ spec) with (".." +:+ "/" +:+ "" +:+ "/" +:+ spec).
  rewrite !split_app_slash, (split_lacks n) by apply Hn.
  change (Path.split "..") with [".."]. change (Path.split "") with [""].
  rewrite !fold_left_app. cbn [fold_left].
  by rewrite segment_plain_up.
Qed.

Lemma startsWith_slash_app (a b : string) :
  a ≠ "" → Str.startsWith (a +:+ b) "/" = Str.startsWith a "/".
Proof. by destruct a. Qed.

Lemma endsWith_slash_app (a b : string) :
  b ≠ "" → Str.endsWith (a +:+ b) "/" = Str.endsWith b "/".
Proof.
  intros Hb. induction a as [|c a IH]; [done|].
  rewrite app_String, endsWith_unfold, IH. destruct (decide _) as [Heq|]; [|done].
  exfalso. injection Heq as _ Heq. by destruct a, b.
Qed.

Lemma normalize_nonempty (path : string) :
  path ≠ "" →
  Path.normalize path =
    let isAbsolute := Str.startsWith path "/" in
    let trailingSeparator := Str.endsWith path "/" in
    let p := Path.normalizeString path (negb isAbsolute) in
    if decide (p = "") then
      (if isAbsolute then "/" else if trailingSeparator then "./" else ".")
    else
      (if isAbsolute then "/" else "") +:+ p
        +:+ (if trailingSeparator then "/" else "").
Proof. intros H. unfold Path.normalize. by rewrite decide_False. Qed.

Lemma join_sibling (dir n1 n2 spec : string) :
  plain n1 → plain n2 → spec ≠ "" →
  Path.join [dir +:+ "/" +:+ n1; "../"; spec]
  = Path.join [dir +:+ "/" +:+ n2; "../"; spec].
Proof.
  intros H1 H2 Hspec.
  assert (∀ n, plain n →
    Path.join [dir +:+ "/" +:+ n; "../"; spec]
    = Path.normalize (dir +:+ "/" +:+ n +:+ "/" +:+ "../" +:+ "/" +:+ spec))
    as Hjoin.
  { intros n Hn. unfold Path.join. rewrite !filter_cons, filter_nil.
    rewrite !decide_True; [|done|done|by destruct dir].
    simpl String.concat. by rewrite !app_assoc_str. }
  rewrite !Hjoin by done.
  rewrite !normalize_nonempty by (by destruct dir). cbv zeta.
  rewrite !normalizeString_sibling by done.
  rewrite <- !(app_assoc_str dir "/").
  rewrite !(startsWith_slash_app (dir +:+ "/")) by (by destruct dir).
  replace (Str.endsWith ((dir +:+ "/") +:+ n1 +:+ "/" +:+ "../" +:+ "/" +:+ spec) "/")
    with (Str.endsWith spec "/").
  2:{ rewrite <- !app_assoc_str. by rewrite endsWith_slash_app. }
  replace (Str.endsWith ((dir +:+ "/") +:+ n2 +:+ "/" +:+ "../" +:+ "/" +:+ spec) "/")
    with (Str.endsWith spec "/").
  2:{ rewrite <- !app_assoc_str. by rewrite endsWith_slash_app. }
  reflexivity.
Qed.

(** ** Paths: the index file of a candidate directory *)

Lemma split_all_lacks (path : string) :
  Forall (λ seg, Str.lacks "/" seg = true) (Path.split path).
Proof.
  induction path as [|c path IH]; [by repeat constructor|]. simpl.
  destruct (decide (c = "/"%char)) as [->|Hc]; [by constructor|].
  destruct IH as [|seg segs Hseg Hsegs]; constructor; try done.
  - simpl. by rewrite decide_False.
  - simpl. by rewrite decide_False.
Qed.

Lemma segment_plain (allow : bool) (res : list string) (seg : string) :
  plain seg → Path.segment allow res seg = seg :: res.
Proof.
  intros (H1 & H2 & H3 & _). unfold Path.segment.
  by rewrite !decide_False by done.
Qed.

Lemma fold_segment_plain (segs res : list string) :
  Forall (λ seg, Str.lacks "/" seg = true) segs →
  Forall plain res →
  Forall plain (fold_left (Path.segment false) segs res).
Proof.
  intros Hsegs. revert res.
  induction Hsegs as [|seg segs Hseg _ IH]; intros res Hres; [done|].
  simpl. apply IH. unfold Path.segment.
  repeat case_decide; try done.
  - destruct Hres as [|top rest Htop Hrest]; [constructor|].
    case_decide; [by constructor|done].
  - by constructor.
Qed.

Lemma fold_segment_push (allow : bool) (segs res : list string) :
  Forall plain segs →
  fold_left (Path.segment allow) segs res = rev segs ++ res.
Proof.
  intros Hsegs. revert res.
  induction Hsegs as [|seg segs Hseg _ IH]; intros res; [done|].
  simpl. by rewrite segment_plain, IH, <- (assoc_L (++)).
Qed.

Lemma concat_cons2 (x y : string) (l : list string) :
  String.concat "/" (x :: y :: l) = x +:+ "/" +:+ String.concat "/" (y :: l).
Proof. reflexivity. Qed.

Lemma concat_snoc (l : list string) (x : string) :
  l ≠ [] → String.concat "/" (l ++ [x]) = String.concat "/" l +:+ "/" +:+ x.
Proof.
  induction l as [|a [|b l] IH]; intros Hl; [done|done|].
  change ((a :: b :: l) ++ [x]) with (a :: b :: (l ++ [x])).
  rewrite !concat_cons2. change (b :: l ++ [x]) with ((b :: l) ++ [x]).
  by rewrite IH, !app_assoc_str.
Qed.

Lemma concat_plain_nonempty (l : list string) :
  l ≠ [] → Forall plain l → String.concat "/" l ≠ "".
Proof.
  intros Hl Hplain. destruct Hplain as [|a l Ha _]; [done|].
  destruct Ha as (Ha & _). destruct a; [done|]. by destruct l.
Qed.

Lemma split_concat (l : list string) :
  l ≠ [] → Forall (λ seg, Str.lacks "/" seg = true) l →
  Path.split (String.concat "/" l) = l.
Proof.
  induction l as [|a [|b l] IH]; intros Hl Hlacks; [done| |].
  - apply split_lacks. by inversion Hlacks.
  - rewrite concat_cons2, split_app_slash.
    inversion Hlacks as [|? ? Ha Hrest]; subst.
    by rewrite (split_lacks a), IH.
Qed.

Lemma endsWith_lacks (n : string) :
  Str.lacks "/" n = true → Str.endsWith n "/" = false.
Proof.
  induction n as [|c n IH]; [done|]. simpl Str.lacks.
  destruct (decide (c = "/"%char)); [done|]. intros H.
  rewrite endsWith_unfold, (IH H). destruct (decide _) as [[= ? ?]|]; done.
Qed.

Lemma endsWith_concat (prefix : string) (l : list string) :
  l ≠ [] → Forall plain l →
  Str.endsWith (prefix +:+ String.concat "/" l) "/" = false.
Proof.
  revert prefix. induction l as [|a [|b l] IH]; intros prefix Hl Hplain; [done| |].
  - inversion Hplain as [|? ? (Ha & _ & _ & Hlacks) _]; subst.
    rewrite endsWith_slash_app by done. by apply endsWith_lacks.
  - rewrite concat_cons2, <- !app_assoc_str. apply IH; [done|].
    by inversion Hplain.
Qed.

(** A path made of [/] and plain segments is its own normal form. *)
Lemma normalize_plain (l : list string) :
  l ≠ [] → Forall plain l →
  Path.normalize ("/" +:+ String.concat "/" l) = "/" +:+ String.concat "/" l.
Proof.
  intros Hl Hplain. rewrite normalize_nonempty by done. cbv zeta.
  change (Str.startsWith ("/" +:+ String.concat "/" l) "/") with true.
  rewrite endsWith_concat by done. cbn [negb].
  unfold Path.normalizeString.
  change ("/" +:+ String.concat "/" l) with ("" +:+ "/" +:+ String.concat "/" l).
  rewrite split_app_slash, split_concat; [|done|].
  2:{ eapply Forall_impl; [exact Hplain|]. by intros ? (_ & _ & _ & ?). }
  change (Path.split "" ++ l) with ("" :: l). cbn [fold_left].
  change (Path.segment false [] "") with (@nil string).
  rewrite fold_segment_push, app_nil_r, rev_involutive by done.
  rewrite decide_False by (by apply concat_plain_nonempty).
  by rewrite app_empty_r.
Qed.

(** For a file with an absolute path, the candidate of a specifier that does
    not end in [/] is the root or [/] followed by plain segments. *)
Lemma resolution_plain (file spec : string) :
  Str.startsWith file "/" = true → spec ≠ "" → Str.endsWith spec "/" = false →
  Path.join [file; "../"; spec] = "/"
  ∨ ∃ l, l ≠ [] ∧ Forall plain l
         ∧ Path.join [file; "../"; spec] = "/" +:+ String.concat "/" l.
Proof.
  intros Habs Hspec Htrail.
  assert (file ≠ "") as Hfile by (by destruct file).
  unfold Path.join. rewrite !filter_cons, filter_nil.
  rewrite !decide_True by done. simpl String.concat.
  rewrite normalize_nonempty by (by destruct file). cbv zeta.
  rewrite startsWith_slash_app, Habs by done. cbn [negb].
  replace (Str.endsWith (file +:+ "/" +:+ "../" +:+ "/" +:+ spec) "/")
    with false.
  2:{ symmetry. rewrite <- !app_assoc_str. by rewrite endsWith_slash_app. }
  unfold Path.normalizeString.
  set (stack := fold_left (Path.segment false) _ []).
  assert (Forall plain stack) as Hstack.
  { apply fold_segment_plain; [apply split_all_lacks|done]. }
  destruct (decide (String.concat "/" (rev stack) = "")) as [|Hp]; [by left|].
  right. exists (rev stack). split_and!.
  - intros Hnil. by rewrite Hnil in Hp.
  - by apply Forall_rev.
  - by rewrite app_empty_r.
Qed.

(** In that case [join(resolution, name)] is the candidate, [/] and the
    name. *)
Lemma join_child (file spec name : string) :
  Str.startsWith file "/" = true → spec ≠ "" → Str.endsWith spec "/" = false →
  plain name →
  let resolution := Path.join [file; "../"; spec] in
  resolution ≠ "/" →
  Path.join [resolution; name] = resolution +:+ "/" +:+ name.
Proof.
  intros Habs Hspec Htrail Hname resolution Hroot.
  destruct (resolution_plain file spec Habs Hspec Htrail)
    as [?|(l & Hl & Hplain & Hres)]; [done|].
  subst resolution. rewrite Hres.
  unfold Path.join. rewrite !filter_cons, filter_nil.
  rewrite !decide_True; [|by destruct Hname|done].
  simpl String.concat. rewrite app_assoc_str, <- concat_snoc by done.
  apply normalize_plain; [by destruct l|].
  apply Forall_app. split; [done|]. constructor; [done|constructor].
Qed.

(** ** The resolver, case by case *)

Lemma updateImportPath_literal (values : Values) (spec : string) (g : Globals) :
  updateImportPath values (Some (StringLiteral spec)) g =
    if negb (Str.startsWith spec ".") then (Some (StringLiteral spec), g)
    else if Str.endsWith spec ".js" then (Some (StringLiteral spec), g)
    else
      match firstMatch (visited g)
              (forms values (Path.join [currentVisitingFile g; "../"; spec])) with
      | Some suffix => (Some (StringLiteral (spec +:+ suffix)), touched g)
      | None => (Some (StringLiteral spec), g)
      end.
Proof.
  unfold updateImportPath, forms, firstMatch, existsb, has.
  destruct (negb _); [reflexivity|]. destruct (Str.endsWith _ _); [reflexivity|].
  unfold mbind, M_bind, get.
  repeat (destruct (bool_decide _); cbn [orb]; try reflexivity).
Qed.

Ltac index_tests :=
  repeat match goal with
    | H : _ ∈ _ |- _ => rewrite (bool_decide_eq_true_2 _ H)
    | H : _ ∉ _ |- _ => rewrite (bool_decide_eq_false_2 _ H)
    end.

(** A decidable statement about concrete data, settled by evaluation. *)
Ltac in_index := apply (bool_decide_unpack _); vm_compute; exact I.

(** C5. A specifier whose candidate path matches none of the File Index forms
    is returned as it is: the resolver yields the same node, leaves
    [hasUpdate] and the rest of the state alone, and there is no error case in
    its result. *)
Theorem unresolvable_passthrough (values : Values) (g : Globals) (spec : string) :
  let resolution := Path.join [currentVisitingFile g; "../"; spec] in
  resolution +:+ ".ts" ∉ visited g →
  resolution +:+ ".d.ts" ∉ visited g →
  resolution +:+ ".tsx" ∉ visited g →
  Path.join [resolution; "index.ts"] ∉ visited g →
  Path.join [resolution; "index.d.ts"] ∉ visited g →
  Path.join [resolution; "index.tsx"] ∉ visited g →
  updateImportPath values (Some (StringLiteral spec)) g
  = (Some (StringLiteral spec), g).
Proof.
  intros resolution H1 H2 H3 H4 H5 H6. rewrite updateImportPath_literal.
  destruct (negb _); [reflexivity|]. destruct (Str.endsWith _ _); [reflexivity|].
  unfold forms, firstMatch, existsb. fold resolution. by index_tests.
Qed.

Lemma unresolvable_passthrough_witness :
  updateImportPath v0 (Some (StringLiteral "./missing")) g_both
  = (Some (StringLiteral "./missing"), g_both).
Proof. apply unresolvable_passthrough; in_index. Defined.

(** The guard of line 123. A specifier that already ends in [.js] is returned
    as it is, with the state untouched, whatever the File Index holds. *)
Theorem already_js_untouched (values : Values) (g : Globals) (spec : string) :
  Str.endsWith spec ".js" = true →
  updateImportPath values (Some (StringLiteral spec)) g
  = (Some (StringLiteral spec), g).
Proof.
  intros Hjs. rewrite updateImportPath_literal, Hjs. by destruct (negb _).
Qed.

Lemma already_js_untouched_witness :
  "/proj/src/a.ts" ∈ visited g_js ∧ "/proj/src/a.js.ts" ∈ visited g_js
  ∧ updateImportPath v0 (Some (StringLiteral "./a.js")) g_js
    = (Some (StringLiteral "./a.js"), g_js).
Proof.
  split; [in_index|]. split; [in_index|].
  apply already_js_untouched. reflexivity.
Defined.

(** The guard does not cover [.jsx]: the statement for both extensions does
    not hold of the resolver. *)
Lemma jsx_suffix_not_untouched :
  ¬ (∀ (values : Values) (g : Globals) (spec : string),
       Str.startsWith spec "." = true →
       Str.endsWith spec ".js" = true ∨ Str.endsWith spec ".jsx" = true →
       updateImportPath values (Some (StringLiteral spec)) g
       = (Some (StringLiteral spec), g)).
Proof.
  intros H. specialize (H v0 g_jsx "./a.jsx" eq_refl (or_intror eq_refl)).
  vm_compute in H. discriminate H.
Qed.

(** C2, at the input where it fails. [./a.jsx] is relative and ends in the
    resolved extension [.jsx], and a file of the same name with [.ts] added,
    [a.jsx.ts], is in the index next to [a.tsx].  The guard of line 123 tests
    [.js] only, so the specifier is resolved again: [.js] is appended to it
    and [hasUpdate] is set, with the [jsx] flag off and with it on. *)
Theorem jsx_specifier_resolved_again :
  Str.startsWith "./a.jsx" "." = true
  ∧ Str.endsWith "./a.jsx" ".jsx" = true
  ∧ Str.endsWith "./a.jsx" ".js" = false
  ∧ "/proj/src/a.jsx.ts" ∈ visited g_jsx
  ∧ updateImportPath v0 (Some (StringLiteral "./a.jsx")) g_jsx
    = (Some (StringLiteral "./a.jsx.js"), touched g_jsx)
  ∧ updateImportPath vjsx (Some (StringLiteral "./a.jsx")) g_jsx
    = (Some (StringLiteral "./a.jsx.js"), touched g_jsx).
Proof.
  split_and!;
    [reflexivity | reflexivity | reflexivity | in_index
    | reflexivity | reflexivity].
Qed.

(** The four tests of the resolver, each under the failure of the ones
    before it. *)
Lemma resolution_priority_cases (values : Values) (g : Globals) (spec : string) :
  Str.startsWith spec "." = true → Str.endsWith spec ".js" = false →
  let resolution := Path.join [currentVisitingFile g; "../"; spec] in
  let result := updateImportPath values (Some (StringLiteral spec)) g in
  let rewritten suffix := (Some (StringLiteral (spec +:+ suffix)), touched g) in
  (resolution +:+ ".ts" ∈ visited g ∨ resolution +:+ ".d.ts" ∈ visited g →
   result = rewritten ".js")
  ∧ (resolution +:+ ".ts" ∉ visited g → resolution +:+ ".d.ts" ∉ visited g →
     (resolution +:+ ".tsx" ∈ visited g →
      result = rewritten (if jsx values then ".jsx" else ".js"))
     ∧ (resolution +:+ ".tsx" ∉ visited g →
        (Path.join [resolution; "index.ts"] ∈ visited g
         ∨ Path.join [resolution; "index.d.ts"] ∈ visited g →
         result = rewritten "/index.js")
        ∧ (Path.join [resolution; "index.ts"] ∉ visited g →
           Path.join [resolution; "index.d.ts"] ∉ visited g →
           Path.join [resolution; "index.tsx"] ∈ visited g →
           result = rewritten (if jsx values then "/index.jsx"
                               else "/index.js")))).
Proof.
  intros Hrel Hjs resolution result rewritten. subst result rewritten.
  rewrite updateImportPath_literal, Hrel, Hjs. cbn [negb].
  unfold forms, firstMatch, existsb. fold resolution.
  split; [intros [H|H]; index_tests; [done|by rewrite orb_true_r]|].
  intros H1 H2. split; [by intros H3; index_tests|].
  intros H3.
  split; [intros [H|H]; index_tests; [done|by rewrite orb_true_r]|].
  intros H4 H5 H6. by index_tests.
Qed.

(** C3. A relative specifier that does not end in [.js] is tested against the
    File Index in a fixed order: the candidate with [.ts] or [.d.ts], then with
    [.tsx], then its [index.ts] or [index.d.ts], then its [index.tsx]; the
    first form found decides the suffix.  With both [a.ts] and [a/index.ts]
    indexed, [./a] becomes [./a.js]; with [a/index.ts] and no file form,
    [./a] becomes [./a/index.js].  The index files are looked up as
    [join(candidate, 'index.ts')]: for a file with an absolute path, a
    specifier that does not end in [/] and a candidate that is not the root,
    that is the candidate followed by [/index.ts]. *)
Theorem resolution_priority (values : Values) :
  (∀ (g : Globals) (spec : string),
     Str.startsWith spec "." = true → Str.endsWith spec ".js" = false →
     let resolution := Path.join [currentVisitingFile g; "../"; spec] in
     let result := updateImportPath values (Some (StringLiteral spec)) g in
     let rewritten suffix := (Some (StringLiteral (spec +:+ suffix)), touched g) in
     (resolution +:+ ".ts" ∈ visited g ∨ resolution +:+ ".d.ts" ∈ visited g →
      result = rewritten ".js")
     ∧ (resolution +:+ ".ts" ∉ visited g → resolution +:+ ".d.ts" ∉ visited g →
        (resolution +:+ ".tsx" ∈ visited g →
         result = rewritten (if jsx values then ".jsx" else ".js"))
        ∧ (resolution +:+ ".tsx" ∉ visited g →
           (Path.join [resolution; "index.ts"] ∈ visited g
            ∨ Path.join [resolution; "index.d.ts"] ∈ visited g →
            result = rewritten "/index.js")
           ∧ (Path.join [resolution; "index.ts"] ∉ visited g →
              Path.join [resolution; "index.d.ts"] ∉ visited g →
              Path.join [resolution; "index.tsx"] ∈ visited g →
              result = rewritten (if jsx values then "/index.jsx"
                                  else "/index.js")))))
  ∧ (∀ g : Globals,
       currentVisitingFile g = "/proj/src/m.ts" →
       "/proj/src/a.ts" ∈ visited g → "/proj/src/a/index.ts" ∈ visited g →
       updateImportPath values (Some (StringLiteral "./a")) g
       = (Some (StringLiteral "./a.js"), touched g))
  ∧ (∀ g : Globals,
       currentVisitingFile g = "/proj/src/m.ts" →
       "/proj/src/a.ts" ∉ visited g → "/proj/src/a.d.ts" ∉ visited g →
       "/proj/src/a.tsx" ∉ visited g → "/proj/src/a/index.ts" ∈ visited g →
       updateImportPath values (Some (StringLiteral "./a")) g
       = (Some (StringLiteral "./a/index.js"), touched g))
  ∧ (∀ (g : Globals) (spec : string),
       Str.startsWith (currentVisitingFile g) "/" = true →
       spec ≠ "" → Str.endsWith spec "/" = false →
       let resolution := Path.join [currentVisitingFile g; "../"; spec] in
       resolution ≠ "/" →
       Path.join [resolution; "index.ts"] = resolution +:+ "/index.ts"
       ∧ Path.join [resolution; "index.d.ts"] = resolution +:+ "/index.d.ts"
       ∧ Path.join [resolution; "index.tsx"] = resolution +:+ "/index.tsx").
Proof.
  split; [|split; [|split]]; cycle 3.
  { intros g spec Habs Hspec Htrail resolution Hroot.
    split_and!; by apply join_child. }
  - intros g spec Hrel Hjs. by apply resolution_priority_cases.
  - intros g Hfile H1 H2. rewrite updateImportPath_literal, Hfile.
    change (Path.join ["/proj/src/m.ts"; "../"; "./a"]) with "/proj/src/a".
    unfold forms, firstMatch, existsb.
    change ("/proj/src/a" +:+ ".ts") with "/proj/src/a.ts". by index_tests.
  - intros g Hfile H1 H2 H3 H4. rewrite updateImportPath_literal, Hfile.
    change (Path.join ["/proj/src/m.ts"; "../"; "./a"]) with "/proj/src/a".
    unfold forms, firstMatch, existsb.
    change ("/proj/src/a" +:+ ".ts") with "/proj/src/a.ts".
    change ("/proj/src/a" +:+ ".d.ts") with "/proj/src/a.d.ts".
    change ("/proj/src/a" +:+ ".tsx") with "/proj/src/a.tsx".
    change (Path.join ["/proj/src/a"; "index.ts"]) with "/proj/src/a/index.ts".
    by index_tests.
Qed.

Lemma resolution_priority_witness :
  updateImportPath v0 (Some (StringLiteral "./a")) g_both
  = (Some (StringLiteral "./a.js"), touched g_both)
  ∧ updateImportPath v0 (Some (StringLiteral "./a")) g_dir
    = (Some (StringLiteral "./a/index.js"), touched g_dir).
Proof.
  destruct (resolution_priority v0) as (_ & Hboth & Hdir & _). split.
  - apply Hboth; [reflexivity|in_index..].
  - apply Hdir; [reflexivity|in_index..].
Defined.

(** C4. Where the candidate is found as a [.tsx] file only, the suffix is
    [.js] with the [jsx] flag off and [.jsx] with it on; where it is found as
    an [index.tsx] only, the suffix is [/index.js] or [/index.jsx]. *)
Theorem jsx_flag (values : Values) (g : Globals) (spec : string) :
  let resolution := Path.join [currentVisitingFile g; "../"; spec] in
  let result := updateImportPath values (Some (StringLiteral spec)) g in
  Str.startsWith spec "." = true → Str.endsWith spec ".js" = false →
  resolution +:+ ".ts" ∉ visited g → resolution +:+ ".d.ts" ∉ visited g →
  (resolution +:+ ".tsx" ∈ visited g →
   result = (Some (StringLiteral
                     (spec +:+ (if jsx values then ".jsx" else ".js"))),
             touched g))
  ∧ (resolution +:+ ".tsx" ∉ visited g →
     Path.join [resolution; "index.ts"] ∉ visited g →
     Path.join [resolution; "index.d.ts"] ∉ visited g →
     Path.join [resolution; "index.tsx"] ∈ visited g →
     result = (Some (StringLiteral
                       (spec +:+ (if jsx values then "/index.jsx"
                                  else "/index.js"))),
               touched g)).
Proof.
  intros resolution result Hrel Hjs H1 H2.
  destruct (resolution_priority_cases values g spec Hrel Hjs) as (_ & H).
  destruct (H H1 H2) as [Htsx Hdir]. split; [exact Htsx|].
  intros H3. exact (proj2 (Hdir H3)).
Qed.

Lemma jsx_flag_witness :
  updateImportPath v0 (Some (StringLiteral "./a")) g_tsx
  = (Some (StringLiteral "./a.js"), touched g_tsx)
  ∧ updateImportPath vjsx (Some (StringLiteral "./a")) g_tsx
    = (Some (StringLiteral "./a.jsx"), touched g_tsx)
  ∧ updateImportPath v0 (Some (StringLiteral "./a")) g_dirtsx
    = (Some (StringLiteral "./a/index.js"), touched g_dirtsx)
  ∧ updateImportPath vjsx (Some (StringLiteral "./a")) g_dirtsx
    = (Some (StringLiteral "./a/index.jsx"), touched g_dirtsx).
Proof.
  split; [|split; [|split]].
  - apply (jsx_flag v0 g_tsx "./a"); try reflexivity; in_index.
  - apply (jsx_flag vjsx g_tsx "./a"); try reflexivity; in_index.
  - apply (jsx_flag v0 g_dirtsx "./a"); try reflexivity; in_index.
  - apply (jsx_flag vjsx g_dirtsx "./a"); try reflexivity; in_index.
Defined.

(** C10. A specifier position that is empty, or holds a node that is not a
    string literal, comes back as it is and the state, [hasUpdate] included,
    is untouched; so an export declaration without a [from] clause and an
    [import()] of a computed expression go through the visitor unchanged. *)
Theorem absent_or_non_literal (values : Values) (g : Globals) :
  (∀ node : option Node,
     node = None ∨ (∃ n, node = Some n ∧ isStringLiteral n = false) →
     updateImportPath values node g = (node, g))
  ∧ (∀ modifiers isTypeOnly exportClause assertClause,
       visit values
         (ExportDeclaration modifiers isTypeOnly exportClause None assertClause) g
       = (ExportDeclaration modifiers isTypeOnly exportClause None assertClause,
          g))
  ∧ (∀ typeArguments arg0 rest,
       isStringLiteral arg0 = false →
       visit values (CallExpression ImportKeyword typeArguments (arg0 :: rest)) g
       = (CallExpression ImportKeyword typeArguments (arg0 :: rest), g)).
Proof.
  split; [|split].
  - intros node [->|(n & -> & Hn)]; [reflexivity|]. by destruct n.
  - reflexivity.
  - intros typeArguments arg0 rest Hn. by destruct arg0.
Qed.

Lemma absent_or_non_literal_witness :
  updateImportPath v0 None g_both = (None, g_both)
  ∧ updateImportPath v0 (Some (OtherNode 79 [])) g_both
    = (Some (OtherNode 79 []), g_both)
  ∧ visit v0 (CallExpression ImportKeyword [] [OtherNode 79 []]) g_both
    = (CallExpression ImportKeyword [] [OtherNode 79 []], g_both).
Proof.
  destruct (absent_or_non_literal v0 g_both) as (Hnode & _ & Hcall).
  split; [|split].
  - apply Hnode. by left.
  - apply Hnode. right. by eexists.
  - by apply Hcall.
Defined.

(** ** What a visit does to the state *)

Lemma firstMatch_forms_nonempty values index resolution suffix :
  firstMatch index (forms values resolution) = Some suffix → suffix ≠ "".
Proof.
  unfold forms, firstMatch.
  repeat (destruct (existsb _ _); [intros [= <-]; by destruct (jsx values)|]).
  done.
Qed.

Lemma updateImportPath_present values n g :
  updateImportPath values (Some n) g
  = (Some (updateImportPathExpr values n g).1,
     (updateImportPathExpr values n g).2).
Proof.
  unfold updateImportPathExpr, mbind, M_bind.
  destruct n; try reflexivity.
  rewrite updateImportPath_literal.
  destruct (negb _); [reflexivity|]. destruct (Str.endsWith _ _); [reflexivity|].
  by destruct (firstMatch _ _).
Qed.

Lemma updateImportPathExpr_frame values n g :
  frame n g (updateImportPathExpr values n g).
Proof.
  unfold updateImportPathExpr, mbind, M_bind.
  destruct n; try (by repeat split; left).
  rewrite updateImportPath_literal.
  destruct (negb _); [by repeat split; left|].
  destruct (Str.endsWith _ _); [by repeat split; left|].
  destruct (firstMatch _ _) as [suffix|] eqn:Hm; [|by repeat split; left].
  apply firstMatch_forms_nonempty in Hm.
  repeat split. right. split; [|done]. simpl.
  intros [= H]. by apply app_neq_self in H.
Qed.

Lemma updateImportPath_frame values node g :
  frame node g (updateImportPath values node g).
Proof.
  destruct node as [n|]; [|by repeat split; left].
  rewrite updateImportPath_present.
  destruct (updateImportPathExpr_frame values n g) as (Hv & Hf & H).
  repeat split; [done..|]. simpl.
  destruct H as [[-> ?]|[? ?]]; [by left|right]. split; [congruence|done].
Qed.

Ltac frame_step :=
  match goal with
  | H : ∀ g, frame ?x g (?m g) |- context [ ?m ?g0 ] =>
      let H' := fresh "Hstep" in
      pose proof (H g0) as H'; destruct (m g0) as [? ?];
      unfold frame in H'; simpl in H'; clear H
  end.

Ltac frame_done :=
  unfold frame; simpl;
  repeat match goal with
    | H : _ ∧ _ |- _ => destruct H
    end;
  split; [congruence|]; split; [congruence|];
  repeat match goal with
    | H : _ ∨ _ |- _ => destruct H as [[? ?]|[? ?]]
    end;
  solve [ left; split; congruence | right; split; congruence ].

Lemma visitNodes_frame (visitor : Node → M Node) (nodes : list Node) :
  Forall (λ n, ∀ g, frame n g (visitor n g)) nodes →
  ∀ g, frame nodes g (visitNodes visitor nodes g).
Proof.
  induction 1 as [|n ns Hn _ IH]; intros g.
  - by repeat split; left.
  - simpl. unfold mbind, M_bind. frame_step. frame_step. frame_done.
Qed.

Lemma visitNode_frame (visitor : Node → M Node) (node : option Node) :
  from_option (λ n, ∀ g, frame n g (visitor n g)) True node →
  ∀ g, frame node g (visitNode visitor node g).
Proof.
  destruct node as [n|]; simpl; intros Hn g.
  - unfold mbind, M_bind. frame_step. frame_done.
  - by repeat split; left.
Qed.

Lemma visit_frame (values : Values) (node : Node) :
  ∀ g, frame node g (visit values node g).
Proof.
  induction node as
    [ statements IH | m ic ms ac | m ty ec ms ac | e ta args IHe IHta IHargs
    | a asr q ta ty IHa IHasr IHq IHta | l IHl | text | | kind children IH ]
    using Node_visit_ind; intros g.
  - pose proof (visitNodes_frame _ _ IH) as IH'; clear IH. simpl. unfold mbind, M_bind.
    frame_step. frame_done.
  - pose proof (updateImportPathExpr_frame values ms) as Hms.
    simpl. unfold mbind, M_bind. frame_step. frame_done.
  - pose proof (updateImportPath_frame values ms) as Hms.
    simpl. unfold mbind, M_bind. frame_step. frame_done.
  - pose proof (visitNodes_frame _ _ IHta) as IHta'; clear IHta. pose proof (visitNodes_frame _ _ IHargs) as IHargs'; clear IHargs.
    assert (∀ g, frame (CallExpression e ta args) g
                   ((expression' ← visit values e;
                     typeArguments' ← visitNodes (visit values) ta;
                     arguments' ← visitNodes (visit values) args;
                     mret (CallExpression expression' typeArguments' arguments'))
                      g)) as Hgeneric.
    { intros g1. unfold mbind, M_bind. do 3 frame_step. frame_done. }
    destruct e; try apply Hgeneric.
    destruct args as [|arg0 rest]; [apply Hgeneric|].
    pose proof (updateImportPathExpr_frame values arg0) as Harg.
    simpl. unfold mbind, M_bind. frame_step. frame_done.
  - pose proof (visitNode_frame _ _ IHasr) as IHasr'; clear IHasr. pose proof (visitNode_frame _ _ IHq) as IHq'; clear IHq.
    pose proof (visitNodes_frame _ _ IHta) as IHta'; clear IHta.
    assert (∀ g, frame (ImportTypeNode a asr q ta ty) g
                   ((argument' ← visit values a;
                     assertions' ← visitNode (visit values) asr;
                     qualifier' ← visitNode (visit values) q;
                     typeArguments' ← visitNodes (visit values) ta;
                     mret (ImportTypeNode argument' assertions' qualifier'
                             typeArguments' ty)) g)) as Hgeneric.
    { intros g1. unfold mbind, M_bind. do 4 frame_step. frame_done. }
    destruct a as [| | | | |l| | |]; try apply Hgeneric.
    destruct l; try apply Hgeneric.
    pose proof (updateImportPathExpr_frame values (StringLiteral text)) as Hlit.
    simpl visit. unfold mbind, M_bind. frame_step. frame_done.
  - simpl. unfold mbind, M_bind. frame_step. frame_done.
  - by repeat split; left.
  - by repeat split; left.
  - pose proof (visitNodes_frame _ _ IH) as IH'; clear IH. simpl. unfold mbind, M_bind.
    frame_step. frame_done.
Qed.

(** ** A second application of the resolver *)

Lemma firstMatch_forms_js values index resolution suffix :
  jsx values = false →
  firstMatch index (forms values resolution) = Some suffix →
  Str.endsWith suffix ".js" = true.
Proof.
  intros Hjsx. unfold forms, firstMatch. rewrite Hjsx.
  repeat (destruct (existsb _ _); [by intros [= <-]|]). done.
Qed.

Lemma endsWith_app_r (s t p : string) :
  Str.endsWith t p = true → Str.endsWith (s +:+ t) p = true.
Proof.
  intros [q ->]%endsWith_spec. rewrite <- app_assoc_str. apply endsWith_app.
Qed.

(** With the [jsx] flag off, what the resolver returns is returned as it is
    by a second application to the same file with the same index. *)
Lemma updateImportPath_again_js values node g g' :
  jsx values = false →
  visited g' = visited g →
  currentVisitingFile g' = currentVisitingFile g →
  updateImportPath values (updateImportPath values node g).1 g'
  = ((updateImportPath values node g).1, g').
Proof.
  intros Hjsx Hv Hf.
  destruct node as [[]|]; try reflexivity.
  rewrite (updateImportPath_literal values text g).
  destruct (negb _) eqn:Hrel; cbn [fst].
  { by rewrite updateImportPath_literal, Hrel. }
  destruct (Str.endsWith _ _) eqn:Hjs; cbn [fst].
  { by rewrite updateImportPath_literal, Hrel, Hjs. }
  destruct (firstMatch _ _) as [suffix|] eqn:Hm; cbn [fst].
  - rewrite updateImportPath_literal.
    rewrite (endsWith_app_r _ _ _ (firstMatch_forms_js _ _ _ _ Hjsx Hm)).
    by destruct (negb (Str.startsWith (text +:+ suffix) ".")).
  - by rewrite updateImportPath_literal, Hrel, Hjs, Hv, Hf, Hm.
Qed.

Lemma updateImportPathExpr_again_js values n g g' :
  jsx values = false →
  visited g' = visited g →
  currentVisitingFile g' = currentVisitingFile g →
  updateImportPathExpr values (updateImportPathExpr values n g).1 g'
  = ((updateImportPathExpr values n g).1, g').
Proof.
  intros Hjsx Hv Hf.
  pose proof (updateImportPath_again_js values (Some n) g g' Hjsx Hv Hf) as H.
  rewrite (updateImportPath_present values n g) in H. cbn [fst] in H.
  rewrite updateImportPath_present in H. injection H as H1 H2.
  by apply injective_projections.
Qed.

Lemma updateImportPathExpr_literal values text g :
  ∃ text', (updateImportPathExpr values (StringLiteral text) g).1
           = StringLiteral text'.
Proof.
  unfold updateImportPathExpr, mbind, M_bind. rewrite updateImportPath_literal.
  destruct (negb _); [by eexists|]. destruct (Str.endsWith _ _); [by eexists|].
  destruct (firstMatch _ _); by eexists.
Qed.

Lemma visit_sameKind values node g : sameKind node (visit values node g).1.
Proof.
  destruct node as [ | | |e ta args|a asr q ta ty| | | | ]; simpl;
    unfold mbind, M_bind; repeat case_match; simpl in *; try done.
  by simplify_eq.
Qed.

Lemma visitNodes_visit_frame values nodes g :
  frame nodes g (visitNodes (visit values) nodes g).
Proof.
  apply visitNodes_frame, Forall_forall. intros n _. apply visit_frame.
Qed.

Lemma visitNode_visit_frame values node g :
  frame node g (visitNode (visit values) node g).
Proof.
  apply visitNode_frame. destruct node; simpl; [apply visit_frame|done].
Qed.

Lemma visitNodes_settles values nodes :
  Forall (settles values) nodes →
  ∀ g g',
    visited g' = visited g →
    currentVisitingFile g' = currentVisitingFile g →
    visitNodes (visit values) (visitNodes (visit values) nodes g).1 g'
    = ((visitNodes (visit values) nodes g).1, g').
Proof.
  induction 1 as [|n ns Hn _ IH]; intros g g' Hv Hf; [done|].
  simpl. unfold mbind, M_bind.
  pose proof (Hn g g' Hv Hf) as Hn'.
  destruct (visit_frame values n g) as (Hv1 & Hf1 & _).
  destruct (visit values n g) as [n' g1]. simpl in *.
  assert (visited g' = visited g1) as Hv' by congruence.
  assert (currentVisitingFile g' = currentVisitingFile g1) as Hf' by congruence.
  pose proof (IH g1 g' Hv' Hf') as Hns.
  destruct (visitNodes (visit values) ns g1) as [ns' g2]. simpl in *.
  unfold mbind, M_bind. by rewrite Hn', Hns.
Qed.

Lemma visitNode_settles values node :
  from_option (settles values) True node →
  ∀ g g',
    visited g' = visited g →
    currentVisitingFile g' = currentVisitingFile g →
    visitNode (visit values) (visitNode (visit values) node g).1 g'
    = ((visitNode (visit values) node g).1, g').
Proof.
  destruct node as [n|]; simpl; intros Hn g g' Hv Hf; [|done].
  unfold mbind, M_bind. pose proof (Hn g g' Hv Hf) as Hn'.
  destruct (visit values n g) as [n' g1]. simpl in *.
  unfold mbind, M_bind. by rewrite Hn'.
Qed.

Lemma visit_call_generic values e ta args :
  isImportCall e args = false →
  visit values (CallExpression e ta args)
  = visitEachChild (visit values) (CallExpression e ta args).
Proof. destruct e; try reflexivity. by destruct args. Qed.

Lemma visit_importType_generic values a asr q ta ty :
  isLiteralArgument a = false →
  visit values (ImportTypeNode a asr q ta ty)
  = visitEachChild (visit values) (ImportTypeNode a asr q ta ty).
Proof. destruct a as [| | | | |l| | |]; try reflexivity. by destruct l. Qed.

Lemma isLiteralArgument_visit values a g :
  isLiteralArgument (visit values a g).1 = isLiteralArgument a.
Proof.
  pose proof (visit_sameKind values a g) as H.
  destruct a as [| | | | |l| | |];
    try (by destruct (visit values _ g).1).
  clear H. simpl. unfold mbind, M_bind.
  pose proof (visit_sameKind values l g) as H.
  destruct (visit values l g) as [l' g1]. simpl in *. by destruct l, l'.
Qed.

(** With the [jsx] flag off, a second visit changes nothing. *)
Lemma visit_again_js values :
  jsx values = false → ∀ node, settles values node.
Proof.
  intros Hjsx node.
  induction node as
    [ statements IH | m ic ms ac | m ty ec ms ac | e ta args IHe IHta IHargs
    | a asr q ta ty IHa IHasr IHq IHta | l IHl | text | | kind children IH ]
    using Node_visit_ind; intros g g' Hv Hf.
  - pose proof (visitNodes_settles values statements IH g g' Hv Hf) as H.
    simpl. unfold mbind, M_bind.
    destruct (visitNodes (visit values) statements g) as [l' g1]. simpl in *.
    unfold mbind, M_bind. by rewrite H.
  - pose proof (updateImportPathExpr_again_js values ms g g' Hjsx Hv Hf) as H.
    simpl. unfold mbind, M_bind.
    destruct (updateImportPathExpr values ms g) as [ms' g1]. simpl in *.
    unfold mbind, M_bind. by rewrite H.
  - pose proof (updateImportPath_again_js values ms g g' Hjsx Hv Hf) as H.
    simpl. unfold mbind, M_bind.
    destruct (updateImportPath values ms g) as [ms' g1]. simpl in *.
    unfold mbind, M_bind. by rewrite H.
  - destruct (isImportCall e args) eqn:Hcall.
    + destruct e; try discriminate. destruct args as [|arg0 rest]; [discriminate|].
      pose proof (updateImportPathExpr_again_js values arg0 g g' Hjsx Hv Hf) as H.
      simpl. unfold mbind, M_bind.
      destruct (updateImportPathExpr values arg0 g) as [arg' g1]. simpl in *.
      unfold mbind, M_bind. by rewrite H.
    + rewrite (visit_call_generic _ _ _ _ Hcall).
      cbn [visitEachChild]. unfold mbind, M_bind.
      pose proof (IHe g g' Hv Hf) as He.
      pose proof (visit_sameKind values e g) as Hk.
      destruct (visit_frame values e g) as (Hv1 & Hf1 & _).
      destruct (visit values e g) as [e' g1].
      cbn [fst snd mret M_ret] in *.
      assert (visited g' = visited g1) as Hv1' by congruence.
      assert (currentVisitingFile g' = currentVisitingFile g1) as Hf1'
        by congruence.
      pose proof (visitNodes_settles values ta IHta g1 g' Hv1' Hf1') as Hta.
      destruct (visitNodes_visit_frame values ta g1) as (Hv2 & Hf2 & _).
      destruct (visitNodes (visit values) ta g1) as [ta' g2].
      cbn [fst snd mret M_ret] in *.
      assert (visited g' = visited g2) as Hv2' by congruence.
      assert (currentVisitingFile g' = currentVisitingFile g2) as Hf2'
        by congruence.
      pose proof (visitNodes_settles values args IHargs g2 g' Hv2' Hf2') as Hargs.
      destruct (visitNodes (visit values) args g2) as [args' g3] eqn:Eargs.
      cbn [fst snd mret M_ret] in *.
      assert (isImportCall e' args' = false) as Hcall'.
      { destruct e, e'; try done. destruct args; [|done].
        by injection Eargs as <- _. }
      rewrite (visit_call_generic _ _ _ _ Hcall').
      cbn [visitEachChild]. unfold mbind, M_bind. by rewrite He, Hta, Hargs.
  - destruct (isLiteralArgument a) eqn:Harg.
    + destruct a as [| | | | |l| | |]; try discriminate.
      destruct l; try discriminate.
      pose proof (updateImportPathExpr_again_js values (StringLiteral text)
                    g g' Hjsx Hv Hf) as H.
      pose proof (updateImportPathExpr_frame values (StringLiteral text) g)
        as (_ & _ & Hlit).
      cbn [visit]. unfold mbind, M_bind.
      destruct (updateImportPathExpr values (StringLiteral text) g)
        as [lit g1] eqn:Elit. cbn [fst snd mret M_ret] in *.
      assert (∃ text', lit = StringLiteral text') as [text' ->].
      { destruct (updateImportPathExpr_literal values text g) as [text' Ht].
        rewrite Elit in Ht. by exists text'. }
      cbn [visit fst mret M_ret]. unfold mbind, M_bind. by rewrite H.
    + rewrite (visit_importType_generic _ _ _ _ _ _ Harg).
      cbn [visitEachChild]. unfold mbind, M_bind.
      pose proof (IHa g g' Hv Hf) as Ha.
      pose proof (isLiteralArgument_visit values a g) as Hk.
      destruct (visit_frame values a g) as (Hv1 & Hf1 & _).
      destruct (visit values a g) as [a' g1].
      cbn [fst snd mret M_ret] in *.
      assert (visited g' = visited g1) as Hv1' by congruence.
      assert (currentVisitingFile g' = currentVisitingFile g1) as Hf1'
        by congruence.
      pose proof (visitNode_settles values asr IHasr g1 g' Hv1' Hf1') as Hasr.
      destruct (visitNode_visit_frame values asr g1) as (Hv2 & Hf2 & _).
      destruct (visitNode (visit values) asr g1) as [asr' g2].
      cbn [fst snd mret M_ret] in *.
      assert (visited g' = visited g2) as Hv2' by congruence.
      assert (currentVisitingFile g' = currentVisitingFile g2) as Hf2'
        by congruence.
      pose proof (visitNode_settles values q IHq g2 g' Hv2' Hf2') as Hq.
      destruct (visitNode_visit_frame values q g2) as (Hv3 & Hf3 & _).
      destruct (visitNode (visit values) q g2) as [q' g3].
      cbn [fst snd mret M_ret] in *.
      assert (visited g' = visited g3) as Hv3' by congruence.
      assert (currentVisitingFile g' = currentVisitingFile g3) as Hf3'
        by congruence.
      pose proof (visitNodes_settles values ta IHta g3 g' Hv3' Hf3') as Hta.
      destruct (visitNodes (visit values) ta g3) as [ta' g4].
      cbn [fst snd mret M_ret] in *.
      assert (isLiteralArgument a' = false) as Harg' by congruence.
      rewrite (visit_importType_generic _ _ _ _ _ _ Harg').
      cbn [visitEachChild]. unfold mbind, M_bind. by rewrite Ha, Hasr, Hq, Hta.
  - pose proof (IHl g g' Hv Hf) as H.
    simpl. unfold mbind, M_bind.
    destruct (visit values l g) as [l' g1]. simpl in *.
    unfold mbind, M_bind. by rewrite H.
  - reflexivity.
  - reflexivity.
  - pose proof (visitNodes_settles values children IH g g' Hv Hf) as H.
    simpl. unfold mbind, M_bind.
    destruct (visitNodes (visit values) children g) as [l' g1]. simpl in *.
    unfold mbind, M_bind. by rewrite H.
Qed.

(** C1, at the input where it fails. With the [jsx] flag on and both [a.tsx]
    and [a.jsx.ts] in the folder, the first run rewrites [./a] to [./a.jsx]
    and sets [hasUpdate]; run again on that output, the resolver rewrites
    [./a.jsx] to [./a.jsx.js] and sets [hasUpdate] again, so the file is
    written a second time. *)
Theorem second_run_rewrites_again :
  let first := ImportDeclaration [] None (StringLiteral "./a") None in
  let second := ImportDeclaration [] None (StringLiteral "./a.jsx") None in
  let third := ImportDeclaration [] None (StringLiteral "./a.jsx.js") None in
  let run1 := main (toolchain := toy) 3 ["src"] vjsx proc_jsx in
  let run2 := main (toolchain := toy) 3 ["src"] vjsx run1.2 in
  visit vjsx (SourceFile [first]) g_jsx = (SourceFile [second], touched g_jsx)
  ∧ visit vjsx (SourceFile [second]) g_jsx = (SourceFile [third], touched g_jsx)
  ∧ hasUpdate (touched g_jsx) = true
  ∧ third ≠ second
  ∧ files run1.2 !! "/proj/src/m.ts" = Some "./a.jsx"
  ∧ files run2.2 !! "/proj/src/m.ts" = Some "./a.jsx.js"
  ∧ WriteFile "/proj/src/m.ts" "./a.jsx.js" ∈ trace run2.2.
Proof.
  split_and!; try by vm_compute.
  apply (bool_decide_unpack _). by vm_compute.
Qed.

(** ** The run driver, callback by callback *)

Lemma flat_map_ext_elem {A B : Type} (f f' : A → list B) (l : list A) :
  (∀ x, x ∈ l → f x = f' x) → flat_map f l = flat_map f' l.
Proof.
  induction l as [|a l IH]; intros H; [done|]. simpl.
  rewrite (H a) by left. rewrite IH; [done|]. intros x Hx. apply H. by right.
Qed.

Section RunProperties.
Context {toolchain : Toolchain}.
Variable values : Values.
Variable prettierConfig : option Json.

Lemma transformed_frame index path file :
  frame (parseFile path file) (globals index path)
    (transformed values index path file).
Proof. apply visit_frame. Qed.

(** [hasUpdate] after the visit tells whether the tree changed. *)
Lemma hasUpdate_transformed index path file :
  hasUpdate (transformed values index path file).2 = false
  ↔ (transformed values index path file).1 = parseFile path file.
Proof.
  destruct (transformed_frame index path file) as (_ & _ & [[H1 H2]|[H1 H2]]).
  - by rewrite H2.
  - rewrite H2. split; [done|]. intros H. by destruct H1.
Qed.

Lemma pipeline_spec path g p :
  let s' := pipeline values prettierConfig path (g, p) in
  visited s'.1 = visited g
  ∧ cwd s'.2 = cwd p ∧ dirs s'.2 = dirs p
  ∧ trace s'.2
    = trace p ++ events values prettierConfig (visited g) (files p) path
  ∧ ∀ q, files s'.2 !! q
         = if decide (q = path)
           then settled values prettierConfig (visited g) (files p) path
           else files p !! q.
Proof.
  unfold pipeline, events, settled, output. simpl.
  destruct (files p !! path) as [file|] eqn:Hfile; simpl.
  2:{ split_and!; try done. intros q. by case_decide; subst. }
  change (visit values (parseFile path file) _)
    with (transformed values (visited g) path file).
  destruct (transformed_frame (visited g) path file) as (Hv & _ & _).
  destruct (transformed values (visited g) path file) as [result g1];
    simpl in *.
  destruct (hasUpdate g1); simpl.
  2:{ split_and!; try done. intros q. by case_decide; subst. }
  destruct prettierConfig as [config|]; [destruct (prettier_format _ _)|];
    simpl;
    (split_and!;
     [done|done|done|by rewrite <- ?(assoc_L (++))|
      intros q; case_decide; subst;
      [by rewrite ?lookup_insert_eq|by rewrite ?lookup_insert_ne]]).
Qed.

Lemma events_ext index disk disk' path :
  disk !! path = disk' !! path →
  events values prettierConfig index disk path
  = events values prettierConfig index disk' path.
Proof. unfold events. by intros ->. Qed.

Lemma settled_ext index disk disk' path :
  disk !! path = disk' !! path →
  settled values prettierConfig index disk path
  = settled values prettierConfig index disk' path.
Proof. unfold settled. by intros ->. Qed.

Lemma runAll_cons path order s :
  runAll values prettierConfig (path :: order) s
  = runAll values prettierConfig order (pipeline values prettierConfig path s).
Proof. reflexivity. Qed.

(** A run over files that are all different: every callback sees its file
    as it was before the run. *)
Lemma runAll_spec order :
  NoDup order →
  ∀ g p,
    let s' := runAll values prettierConfig order (g, p) in
    visited s'.1 = visited g
    ∧ cwd s'.2 = cwd p ∧ dirs s'.2 = dirs p
    ∧ trace s'.2
      = trace p
        ++ flat_map (events values prettierConfig (visited g) (files p)) order
    ∧ ∀ q, files s'.2 !! q
           = if decide (q ∈ order)
             then settled values prettierConfig (visited g) (files p) q
             else files p !! q.
Proof.
  induction 1 as [|a l Ha Hl IH]; intros g p.
  { simpl. split_and!; try done. by rewrite app_nil_r. }
  rewrite runAll_cons.
  destruct (pipeline_spec a g p) as (Hv & Hc & Hd & Ht & Hf).
  destruct (pipeline values prettierConfig a (g, p)) as [g1 p1].
  simpl in Hv, Hc, Hd, Ht, Hf.
  destruct (IH g1 p1) as (Hv' & Hc' & Hd' & Ht' & Hf'). cbv zeta.
  assert (∀ q, q ∈ l → files p1 !! q = files p !! q) as Hsame.
  { intros q Hq. rewrite Hf, decide_False; [done|]. by intros ->. }
  split_and!; try congruence.
  - rewrite Ht', Ht, Hv, <- (assoc_L (++)). f_equal.
    cbn [flat_map]. f_equal.
    apply flat_map_ext_elem. intros q Hq. by apply events_ext, Hsame.
  - intros q. rewrite Hf', Hv. destruct (decide (q ∈ l)) as [Hq|Hq].
    + rewrite decide_True by (by right). by apply settled_ext, Hsame.
    + rewrite Hf. destruct (decide (q = a)) as [->|Hne].
      * rewrite decide_True by left. done.
      * rewrite decide_False; [done|]. by intros [?|?]%elem_of_cons.
Qed.

Lemma elem_of_events index disk path q data :
  WriteFile q data ∈ events values prettierConfig index disk path →
  q = path
  ∧ ∃ file, disk !! path = Some file
            ∧ output values prettierConfig index path file = Some data.
Proof.
  unfold events. intros [[=]|H]%elem_of_cons.
  destruct (disk !! path) as [file|]; [|by apply elem_of_nil in H].
  destruct (output _ _ _ _ _) as [data'|] eqn:Hout; [|by apply elem_of_nil in H].
  apply list_elem_of_singleton in H as [= -> ->]. eauto.
Qed.

Lemma output_changed index path file data :
  output values prettierConfig index path file = Some data →
  (transformed values index path file).1 ≠ parseFile path file.
Proof.
  unfold output. intros Hout Hsame.
  apply hasUpdate_transformed in Hsame. by rewrite Hsame in Hout.
Qed.

(** C8. In a run over the files of the index, a file in which the visitor
    rewrites nothing keeps its content and no write to it is attempted;
    every write of the run goes to a file of the run whose tree the visitor
    changed, at that file's own path, and the run creates no file. *)
Theorem noop_skip (order : list string) (g : Globals) (p : Process)
    (path file : string) :
  NoDup order →
  files p !! path = Some file →
  (transformed values (visited g) path file).1 = parseFile path file →
  let p' := (runAll values prettierConfig order (g, p)).2 in
  files p' !! path = Some file
  ∧ dom (files p') = dom (files p)
  ∧ ∃ evs, trace p' = trace p ++ evs
      ∧ (∀ data, WriteFile path data ∉ evs)
      ∧ (∀ q data, WriteFile q data ∈ evs →
           q ∈ order
           ∧ files p' !! q = Some data
           ∧ ∃ before, files p !! q = Some before
               ∧ (transformed values (visited g) q before).1
                 ≠ parseFile q before).
Proof.
  intros Hnodup Hfile Hsame p'.
  destruct (runAll_spec order Hnodup g p) as (_ & _ & _ & Ht & Hf).
  fold p' in Ht, Hf.
  assert (output values prettierConfig (visited g) path file = None) as Hout.
  { unfold output. apply hasUpdate_transformed in Hsame. by rewrite Hsame. }
  split_and!.
  - rewrite Hf. case_decide; [|done]. unfold settled.
    rewrite Hfile. simpl. by rewrite Hout.
  - apply set_eq. intros q. rewrite !elem_of_dom, Hf.
    case_decide; [|done]. unfold settled.
    destruct (files p !! q); simpl; split; intros [? ?]; by eauto.
  - eexists. split; [exact Ht|]. split.
    + intros data Hin. apply list_elem_of_In, in_flat_map in Hin.
      destruct Hin as (x & _ & Hin%list_elem_of_In).
      apply elem_of_events in Hin as (<- & file' & Hf' & Hout').
      congruence.
    + intros q data Hin. apply list_elem_of_In, in_flat_map in Hin.
      destruct Hin as (x & Hx%list_elem_of_In & Hin%list_elem_of_In).
      apply elem_of_events in Hin as (<- & before & Hb & Hout').
      split_and!; [done| |].
      * rewrite Hf, decide_True by done. unfold settled.
        rewrite Hb. simpl. by rewrite Hout'.
      * exists before. split; [done|]. by eapply output_changed.
Qed.

(** C9. With no positional argument, or more than one, the program prints
    the usage line and exits with status 0; nothing else happens: no
    directory is read, no file is read or written. *)
Theorem usage_exit (fuel : nat) (positionals : list string) (p : Process) :
  length positionals ≠ 1 →
  main fuel positionals values p = (Exit 0, emit (ConsoleLog usage) p)
  ∧ files (main fuel positionals values p).2 = files p
  ∧ trace (main fuel positionals values p).2
    = trace p ++ [ConsoleLog "Usage: ts-esm-migrate <folder>"].
Proof. intros H. by destruct positionals as [|? [|? ?]]. Qed.

(** C7. The resolver's answer is a function of the directory of the
    containing file, the specifier, the File Index and the [jsx] flag: two
    calls that agree on these return the same node, whatever [hasUpdate] and
    the file's own name are.  No call changes the File Index, a run leaves
    it as it was, and the files a run leaves behind are the same in every
    order of its callbacks: each file is settled from its own content
    before the run. *)
Theorem resolution_pure (values' : Values) (dir n1 n2 : string)
    (node : option Node) (g1 g2 : Globals) :
  plain n1 → plain n2 →
  currentVisitingFile g1 = dir +:+ "/" +:+ n1 →
  currentVisitingFile g2 = dir +:+ "/" +:+ n2 →
  visited g1 = visited g2 →
  jsx values = jsx values' →
  (updateImportPath values node g1).1 = (updateImportPath values' node g2).1
  ∧ visited (updateImportPath values node g1).2 = visited g1
  ∧ (∀ (order order' : list string) (g : Globals) (p : Process),
       NoDup order → order ≡ₚ order' →
       let s := runAll values prettierConfig order (g, p) in
       let s' := runAll values prettierConfig order' (g, p) in
       visited s.1 = visited g
       ∧ files s.2 = files s'.2
       ∧ ∀ q, q ∈ order →
              files s.2 !! q
              = settled values prettierConfig (visited g) (files p) q).
Proof.
  intros Hn1 Hn2 Hf1 Hf2 Hv Hjsx. split_and!.
  - destruct node as [[]|]; try reflexivity.
    rewrite !updateImportPath_literal.
    destruct text as [|c text]; [reflexivity|].
    rewrite Hf1, Hf2, Hv, (join_sibling dir n1 n2) by done.
    replace (forms values) with (forms values')
      by (unfold forms; by rewrite Hjsx).
    destruct (negb _); [done|]. destruct (Str.endsWith _ _); [done|].
    by destruct (firstMatch _ _).
  - by destruct (updateImportPath_frame values node g1) as (? & _).
  - intros order order' g p Hnodup Hperm s s'.
    assert (NoDup order') as Hnodup' by (by rewrite <- Hperm).
    destruct (runAll_spec order Hnodup g p) as (Hvis & _ & _ & _ & Hfiles).
    destruct (runAll_spec order' Hnodup' g p) as (_ & _ & _ & _ & Hfiles').
    fold s in Hvis, Hfiles. fold s' in Hfiles'. split_and!; [done| |].
    + apply map_eq. intros q. rewrite Hfiles, Hfiles'.
      destruct (decide (q ∈ order)) as [Hq|Hq].
      * rewrite decide_True; [done|]. by rewrite <- Hperm.
      * rewrite decide_False; [done|]. by rewrite <- Hperm.
    + intros q Hq. by rewrite Hfiles, decide_True.
Qed.
End RunProperties.

(** ** Blank lines through the sentinel comment *)

Lemma replace_from_skip (pat rep q s : string) :
  Str.replace_from pat rep (String.length q) (q +:+ s)
  = Str.replace_from pat rep 0 s.
Proof. induction q as [|c q IH]; [by destruct s|]. by rewrite app_String. Qed.

Lemma replaceAll_match (c : ascii) (pat rep s : string) :
  Str.replaceAll (String c pat) rep (String c pat +:+ s)
  = rep +:+ Str.replaceAll (String c pat) rep s.
Proof.
  unfold Str.replaceAll. rewrite app_String. cbn [Str.replace_from].
  rewrite <- app_String, startsWith_app.
  cbn [String.length Nat.sub]. rewrite ?Nat.sub_0_r. by rewrite replace_from_skip.
Qed.

Lemma replaceAll_pass (c : ascii) (pat rep s : string) :
  Str.startsWith (String c s) pat = false →
  Str.replaceAll pat rep (String c s) = String c (Str.replaceAll pat rep s).
Proof. unfold Str.replaceAll. cbn [Str.replace_from]. by intros ->. Qed.

Lemma includes_String (c : ascii) (s p : string) :
  Str.includes (String c s) p = false →
  Str.startsWith (String c s) p = false ∧ Str.includes s p = false.
Proof. cbn [Str.includes]. by destruct (Str.startsWith _ _). Qed.

Lemma markBlankLines_blank (rest : string) :
  markBlankLines (LF +:+ LF +:+ rest)
  = LF +:+ sentinel +:+ markBlankLines rest.
Proof.
  unfold markBlankLines. rewrite <- app_assoc_str.
  change (LF +:+ LF) with (String "010" LF).
  by rewrite replaceAll_match, app_assoc_str.
Qed.

Lemma markBlankLines_pass (c : ascii) (rest : string) :
  Str.startsWith (String c rest) (LF +:+ LF) = false →
  markBlankLines (String c rest) = String c (markBlankLines rest).
Proof. apply replaceAll_pass. Qed.

(** A text without line feed that starts the marked text starts the text. *)
Lemma startsWith_markBlankLines (p text : string) :
  Str.lacks "010" p = true →
  Str.startsWith (markBlankLines text) p = true →
  Str.startsWith text p = true.
Proof.
  revert text. induction p as [|a p IH]; intros text Hp; [done|].
  cbn [Str.lacks] in Hp. destruct (decide (a = "010"%char)) as [|Ha]; [done|].
  destruct text as [|d text]; [done|].
  destruct (Str.startsWith (String d text) (LF +:+ LF)) eqn:Hblank.
  - apply startsWith_spec in Hblank as [rest Hrest].
    rewrite Hrest, app_assoc_str, markBlankLines_blank.
    change (LF +:+ sentinel +:+ markBlankLines rest)
      with (String "010" (sentinel +:+ markBlankLines rest)).
    cbn [Str.startsWith]. by rewrite decide_False by done.
  - rewrite markBlankLines_pass by done. cbn [Str.startsWith].
    destruct (decide (d = a)); [|done]. by apply IH.
Qed.

Lemma restore_mark (n : nat) :
  ∀ text : string,
    String.length text ≤ n →
    Str.includes text sentinel = false →
    restoreBlankLines (markBlankLines text) = text.
Proof.
  induction n as [n IH] using lt_wf_ind. intros text Hlen Hfree.
  destruct text as [|c text]; [done|].
  destruct (includes_String _ _ _ Hfree) as [Hhere Hrest].
  destruct (Str.startsWith (String c text) (LF +:+ LF)) eqn:Hblank.
  - apply startsWith_spec in Hblank as [rest Hrest'].
    rewrite app_assoc_str in Hrest'.
    change (LF +:+ LF +:+ rest) with (String "010" (String "010" rest)) in Hrest'.
    injection Hrest' as -> ->.
    change (String "010" (String "010" rest)) with (LF +:+ LF +:+ rest) at 1.
    rewrite markBlankLines_blank.
    change (LF +:+ sentinel +:+ markBlankLines rest)
      with (String "010" (sentinel +:+ markBlankLines rest)).
    unfold restoreBlankLines. rewrite replaceAll_pass by done.
    change sentinel with (String "/" "** THIS_IS_A_NEWLINE **/") at 1 2.
    rewrite replaceAll_match. fold sentinel. fold (restoreBlankLines (markBlankLines rest)).
    destruct (includes_String _ _ _ Hrest) as [_ Hrest2].
    rewrite (IH (String.length rest)); [done| |done|done].
    cbn [String.length] in Hlen. lia.
  - rewrite markBlankLines_pass by done.
    unfold restoreBlankLines. rewrite replaceAll_pass.
    + fold (restoreBlankLines (markBlankLines text)).
      rewrite (IH (String.length text)); [done| |done|done].
      cbn [String.length] in Hlen. lia.
    + rewrite <- markBlankLines_pass by done.
      destruct (Str.startsWith (markBlankLines _) sentinel) eqn:Hs; [|done].
      apply startsWith_markBlankLines in Hs; [congruence|done].
Qed.

(** C6. For a text that does not contain the sentinel comment, putting the
    line feed back for each sentinel comment, in the text in which every
    double line feed was replaced by a line feed and the sentinel comment,
    gives the text back. *)
Theorem sentinel_roundtrip (text : string) :
  Str.includes text sentinel = false →
  restoreBlankLines (markBlankLines text) = text.
Proof. intros H. by apply (restore_mark (String.length text)). Qed.

Lemma sentinel_roundtrip_witness :
  restoreBlankLines (markBlankLines blank_line_sample) = blank_line_sample.
Proof. apply sentinel_roundtrip. reflexivity. Defined.

(** ** The sample folder *)

Example main_sample :
  let r := main (toolchain := toy) 3 ["src"] v0 proc0 in
  r.1 = Exit 0
  ∧ trace r.2
    = [ ConsoleLog "Working on /proj/src"; Readdir "/proj/src";
        ReadFile "/proj/src/m.ts"; WriteFile "/proj/src/m.ts" "./a.js";
        ReadFile "/proj/src/a.ts" ]
  ∧ files r.2 !! "/proj/src/m.ts" = Some "./a.js"
  ∧ files r.2 !! "/proj/src/a.ts" = Some "react".
Proof. by vm_compute. Qed.

Lemma noop_skip_witness :
  let p' := (runAll (toolchain := toy) v0 None order0 (globals index0 "", proc0)).2 in
  files p' !! "/proj/src/a.ts" = Some "react"
  ∧ dom (files p') = dom (files proc0).
Proof.
  destruct (noop_skip (toolchain := toy) v0 None order0 (globals index0 "")
              proc0 "/proj/src/a.ts" "react") as (H1 & H2 & _);
    [in_index|reflexivity|reflexivity|].
  split; [exact H1|exact H2].
Defined.

Lemma usage_exit_witness :
  main (toolchain := toy) 3 [] v0 proc0 = (Exit 0, emit (ConsoleLog usage) proc0)
  ∧ main (toolchain := toy) 3 ["src"; "lib"] v0 proc0
    = (Exit 0, emit (ConsoleLog usage) proc0).
Proof.
  split.
  - apply (usage_exit (toolchain := toy) v0 3 [] proc0). simpl. lia.
  - apply (usage_exit (toolchain := toy) v0 3 ["src"; "lib"] proc0). simpl. lia.
Defined.

Lemma resolution_pure_witness :
  (updateImportPath v0 (Some (StringLiteral "./a"))
     (globals index0 "/proj/src/m.ts")).1
  = (updateImportPath {| jsx := false; prettier := Some "p.json" |}
       (Some (StringLiteral "./a"))
       {| visited := index0; currentVisitingFile := "/proj/src/k.tsx";
          hasUpdate := true |}).1.
Proof.
  apply (resolution_pure (toolchain := toy) v0 None
           {| jsx := false; prettier := Some "p.json" |}
           "/proj/src" "m.ts" "k.tsx"); try reflexivity;
    by split_and!.
Defined.

(** * Further properties of the code *)

(** ** The resolver *)

(** X1. A specifier that does not start with [.] (a package name, an absolute
    path, a URL, the empty text) is returned as it is and [hasUpdate] is not
    set, whatever the File Index holds. *)
Theorem bare_specifier_untouched (values : Values) (g : Globals) (spec : string) :
  Str.startsWith spec "." = false →
  updateImportPath values (Some (StringLiteral spec)) g
  = (Some (StringLiteral spec), g).
Proof. intros H. by rewrite updateImportPath_literal, H. Qed.

Lemma bare_specifier_untouched_witness :
  updateImportPath v0 (Some (StringLiteral "a"))
    (globals {[ "/proj/src/a.ts"; "/proj/a.ts"; "a.ts" ]} "/proj/src/m.ts")
  = (Some (StringLiteral "a"),
     globals {[ "/proj/src/a.ts"; "/proj/a.ts"; "a.ts" ]} "/proj/src/m.ts").
Proof. apply bare_specifier_untouched. reflexivity. Defined.

Lemma firstMatch_forms_suffix values index resolution suffix :
  firstMatch index (forms values resolution) = Some suffix →
  suffix ∈ suffixes ∧ (jsx values = false → suffix ∈ [".js"; "/index.js"]).
Proof.
  unfold forms, firstMatch, suffixes.
  repeat (destruct (existsb _ _);
          [intros [= <-]; destruct (jsx values); split; try done;
           set_solver|]).
  done.
Qed.

(** X2. The resolver only ever appends: its result is its argument with the
    state untouched, or the argument is a relative string literal, the result
    is that text followed by one of [.js], [.jsx], [/index.js], [/index.jsx]
    ([.js] or [/index.js] with the [jsx] flag off), and [hasUpdate] is set. *)
Theorem resolver_only_appends (values : Values) (node : option Node)
    (g : Globals) :
  updateImportPath values node g = (node, g)
  ∨ ∃ spec suffix,
      node = Some (StringLiteral spec)
      ∧ Str.startsWith spec "." = true
      ∧ Str.endsWith spec ".js" = false
      ∧ suffix ∈ suffixes
      ∧ (jsx values = false → suffix ∈ [".js"; "/index.js"])
      ∧ updateImportPath values node g
        = (Some (StringLiteral (spec +:+ suffix)), touched g).
Proof.
  destruct node as [[]|]; try (by left).
  rewrite updateImportPath_literal.
  destruct (Str.startsWith text ".") eqn:Hrel; [|by left]. cbn [negb].
  destruct (Str.endsWith text ".js") eqn:Hjs; [by left|].
  destruct (firstMatch _ _) as [suffix|] eqn:Hm; [|by left].
  right. exists text, suffix.
  destruct (firstMatch_forms_suffix _ _ _ _ Hm). by split_and!.
Qed.

(** ** The visitor *)

Lemma updateImportPathExpr_appended values n g :
  Appended n (updateImportPathExpr values n g).1.
Proof.
  unfold updateImportPathExpr, mbind, M_bind.
  destruct n; try (by left).
  rewrite updateImportPath_literal.
  destruct (negb _); [by left|].
  destruct (Str.endsWith _ _); [by left|].
  destruct (firstMatch _ _) as [suffix|] eqn:Hm; [|by left].
  right. exists text, suffix.
  by destruct (firstMatch_forms_suffix _ _ _ _ Hm).
Qed.

Lemma visitNodes_extends values nodes :
  Forall (λ n, ∀ g, Extends n (visit values n g).1) nodes →
  ∀ g, Forall2 Extends nodes (visitNodes (visit values) nodes g).1.
Proof.
  induction 1 as [|n ns Hn _ IH]; intros g; [constructor|].
  simpl. unfold mbind, M_bind. pose proof (Hn g) as Hn'.
  destruct (visit values n g) as [n' g1]. pose proof (IH g1) as Hns.
  destruct (visitNodes (visit values) ns g1) as [ns' g2]. by constructor.
Qed.

Lemma visitNode_extends values node :
  from_option (λ n, ∀ g, Extends n (visit values n g).1) True node →
  ∀ g, option_Forall2 Extends node (visitNode (visit values) node g).1.
Proof.
  destruct node as [n|]; simpl; intros Hn g; [|constructor].
  unfold mbind, M_bind. pose proof (Hn g) as Hn'.
  destruct (visit values n g) as [n' g1]. by constructor.
Qed.

(** X3. The visitor keeps the tree in shape: what it returns has the same
    nodes in the same places as its argument and differs from it at specifier
    positions only (the module specifier of an import or export declaration,
    the first argument of an [import()] call, the literal of an import type),
    where a string literal may have got one of the four suffixes appended;
    everything else, the remaining arguments of an [import()] call included,
    is identical. *)
Theorem visit_extends (values : Values) (node : Node) (g : Globals) :
  Extends node (visit values node g).1
  ∧ ∀ ta arg0 rest,
      ∃ arg0',
        (visit values (CallExpression ImportKeyword ta (arg0 :: rest)) g).1
        = CallExpression ImportKeyword ta (arg0' :: rest)
        ∧ Appended arg0 arg0'.
Proof.
  split; cycle 1.
  { intros ta arg0 rest.
    pose proof (updateImportPathExpr_appended values arg0 g) as H.
    simpl. unfold mbind, M_bind.
    destruct (updateImportPathExpr values arg0 g) as [arg' g1].
    by exists arg'. }
  revert g.
  induction node as
    [ statements IH | m ic ms ac | m ty ec ms ac | e ta args IHe IHta IHargs
    | a asr q ta ty IHa IHasr IHq IHta | l IHl | text | | kind children IH ]
    using Node_visit_ind; intros g.
  - pose proof (visitNodes_extends values statements IH g) as H.
    simpl. unfold mbind, M_bind.
    destruct (visitNodes (visit values) statements g) as [l' g1].
    by apply Extends_SourceFile.
  - pose proof (updateImportPathExpr_appended values ms g) as H.
    simpl. unfold mbind, M_bind.
    destruct (updateImportPathExpr values ms g) as [ms' g1].
    by apply Extends_ImportDeclaration.
  - destruct ms as [ms|]; [|apply Extends_refl].
    pose proof (updateImportPathExpr_appended values ms g) as H.
    cbn [visit]. unfold mbind, M_bind.
    rewrite updateImportPath_present.
    by apply Extends_ExportDeclaration.
  - destruct (isImportCall e args) eqn:Hcall.
    + destruct e; try discriminate.
      destruct args as [|arg0 rest]; [discriminate|].
      pose proof (updateImportPathExpr_appended values arg0 g) as H.
      simpl. unfold mbind, M_bind.
      destruct (updateImportPathExpr values arg0 g) as [arg' g1].
      by apply Extends_importCall.
    + rewrite (visit_call_generic _ _ _ _ Hcall).
      cbn [visitEachChild]. unfold mbind, M_bind.
      pose proof (IHe g) as He. destruct (visit values e g) as [e' g1].
      pose proof (visitNodes_extends values ta IHta g1) as Hta.
      destruct (visitNodes (visit values) ta g1) as [ta' g2].
      pose proof (visitNodes_extends values args IHargs g2) as Hargs.
      destruct (visitNodes (visit values) args g2) as [args' g3].
      by apply Extends_CallExpression.
  - destruct (isLiteralArgument a) eqn:Harg.
    + destruct a as [| | | | |l| | |]; try discriminate.
      destruct l; try discriminate.
      pose proof (updateImportPathExpr_appended values (StringLiteral text) g)
        as H.
      cbn [visit]. unfold mbind, M_bind.
      destruct (updateImportPathExpr values (StringLiteral text) g)
        as [lit g1].
      by apply Extends_importType.
    + rewrite (visit_importType_generic _ _ _ _ _ _ Harg).
      cbn [visitEachChild]. unfold mbind, M_bind.
      pose proof (IHa g) as Ha. destruct (visit values a g) as [a' g1].
      pose proof (visitNode_extends values asr IHasr g1) as Hasr.
      destruct (visitNode (visit values) asr g1) as [asr' g2].
      pose proof (visitNode_extends values q IHq g2) as Hq.
      destruct (visitNode (visit values) q g2) as [q' g3].
      pose proof (visitNodes_extends values ta IHta g3) as Hta.
      destruct (visitNodes (visit values) ta g3) as [ta' g4].
      by apply Extends_ImportTypeNode.
  - pose proof (IHl g) as H. simpl. unfold mbind, M_bind.
    destruct (visit values l g) as [l' g1]. by apply Extends_LiteralTypeNode.
  - apply Extends_refl.
  - apply Extends_refl.
  - pose proof (visitNodes_extends values children IH g) as H.
    simpl. unfold mbind, M_bind.
    destruct (visitNodes (visit values) children g) as [l' g1].
    by apply Extends_OtherNode.
Qed.

(** What [Extends] says of an [import()] call with arguments: only the first
    argument may differ. *)
Lemma Extends_importCall_inv (ta : list Node) (arg0 : Node) (rest : list Node)
    (n' : Node) :
  Extends (CallExpression ImportKeyword ta (arg0 :: rest)) n' →
  ∃ arg0', n' = CallExpression ImportKeyword ta (arg0' :: rest)
           ∧ Appended arg0 arg0'.
Proof.
  inversion 1; subst.
  - exists arg0. split; [done|by left].
  - by eexists.
  - discriminate.
Qed.

(** A string literal that is not at a specifier position stays. *)
Lemma Extends_StringLiteral_inv (text : string) (n' : Node) :
  Extends (StringLiteral text) n' → n' = StringLiteral text.
Proof. by inversion 1. Qed.

(** X4. With the [jsx] flag off the visitor is idempotent on trees: visiting
    what a first visit returned, for the same file and the same index, returns
    it as it is and leaves the state, [hasUpdate] included, untouched. *)
Theorem second_visit_changes_nothing (values : Values) (node : Node)
    (g g' : Globals) :
  jsx values = false →
  visited g' = visited g →
  currentVisitingFile g' = currentVisitingFile g →
  visit values (visit values node g).1 g' = ((visit values node g).1, g').
Proof. intros Hjsx. by apply visit_again_js. Qed.

Lemma second_visit_changes_nothing_witness :
  visit v0 (visit v0 tree0 g0).1 g0 = ((visit v0 tree0 g0).1, g0)
  ∧ (visit v0 tree0 g0).1 ≠ tree0.
Proof.
  split; [by apply second_visit_changes_nothing|].
  vm_compute. discriminate.
Defined.

(** X5. A visit never changes the File Index or the current file, and never
    clears [hasUpdate]: either the tree comes back as it is and [hasUpdate]
    keeps its value, or the tree has changed and [hasUpdate] is set. *)
Theorem visit_state (values : Values) (node : Node) (g : Globals) :
  let r := visit values node g in
  visited r.2 = visited g
  ∧ currentVisitingFile r.2 = currentVisitingFile g
  ∧ ((r.1 = node ∧ hasUpdate r.2 = hasUpdate g)
     ∨ (r.1 ≠ node ∧ hasUpdate r.2 = true)).
Proof. apply visit_frame. Qed.

(** ** File discovery *)

Lemma foldl_invariant {A B : Type} (Inv : A → Prop) (f : A → B → A)
    (l : list B) (init : A) :
  (∀ acc x, x ∈ l → Inv acc → Inv (f acc x)) →
  Inv init → Inv (foldl f init l).
Proof.
  revert init. induction l as [|x l IH]; intros init Hstep Hinit; [done|].
  simpl. apply IH.
  - intros acc y Hy. apply Hstep. by right.
  - apply Hstep; [by left|done].
Qed.

Lemma walk_walked (disk : gmap string (list Dirent)) (root : string)
    (fuel : nat) :
  ∀ folder, Reached disk root folder → walked disk root (walk fuel disk folder).
Proof.
  induction fuel as [|fuel IH]; intros folder Hfolder.
  { split; simpl; [by intros e ?%elem_of_nil|done]. }
  simpl. destruct (disk !! folder) as [items|] eqn:Hitems.
  2:{ split; simpl; [|done].
      intros e ->%list_elem_of_singleton. by exists folder. }
  apply foldl_invariant.
  - intros [evs [paths|]] item Hitem [Hevs Hpaths]; [|done]. simpl in *.
    destruct (isFile item) eqn:HisFile.
    + destruct (_ || _) eqn:Hname; [|done]. split; simpl; [done|].
      intros ? [= <-] p [Hp|Hp]%elem_of_app.
      * by eapply Hpaths.
      * apply list_elem_of_singleton in Hp as ->.
        exists folder, items, item. split_and!; try done.
        apply orb_true_iff in Hname. tauto.
    + destruct (isDirectory item) eqn:HisDir; [|done].
      case_bool_decide as Hvendor; [|done].
      assert (Reached disk root (Path.join [folder; name item])) as Hchild
        by (by eapply Reached_child).
      destruct (IH _ Hchild) as [Hevs' Hpaths'].
      destruct (walk fuel disk (Path.join [folder; name item])) as [evs' r].
      split; simpl in *.
      * intros e [He|He]%elem_of_app; [by apply Hevs|by apply Hevs'].
      * intros paths' Hr. destruct r as [sub|]; [|done].
        injection Hr as <-. intros p [Hp|Hp]%elem_of_app.
        -- by eapply Hpaths.
        -- by eapply Hpaths'.
  - split; simpl.
    + intros e ->%list_elem_of_singleton. by exists folder.
    + intros ? [= <-] p ?%elem_of_nil. done.
Qed.

(** X6. Every directory a walk reads is the root folder or is reached from it
    through directory entries none of which is named [node_modules]: the
    vendor directory is never read, at any depth. *)
Theorem walk_reads_reached (disk : gmap string (list Dirent)) (root : string)
    (fuel : nat) (e : Event) :
  e ∈ (walk fuel disk root).1 →
  ∃ folder, e = Readdir folder ∧ Reached disk root folder.
Proof.
  intros He.
  destruct (walk_walked disk root fuel root (Reached_root _ _)) as [H _].
  by apply H.
Qed.

Example walk_sample :
  walk 3 disk_tree "/proj/src"
  = ([Readdir "/proj/src"; Readdir "/proj/src/lib"],
     Some ["/proj/src/m.ts"; "/proj/src/lib/b.tsx"]).
Proof. by vm_compute. Qed.

Lemma walk_reads_reached_witness :
  ∃ folder,
    Readdir "/proj/src/lib" = Readdir folder
    ∧ Reached disk_tree "/proj/src" folder.
Proof. apply (walk_reads_reached disk_tree "/proj/src" 3). in_index. Defined.

(** A reached folder is the root or is reached from a directory entry of the
    root. *)
Lemma Reached_first (disk : gmap string (list Dirent)) (root folder : string) :
  Reached disk root folder →
  folder = root
  ∨ ∃ items item,
      disk !! root = Some items ∧ item ∈ items
      ∧ isFile item = false ∧ isDirectory item = true
      ∧ name item ≠ "node_modules"
      ∧ Reached disk (Path.join [root; name item]) folder.
Proof.
  induction 1 as [|folder items item Hreached IH Hitems Hitem Hf Hd Hn];
    [by left|right].
  destruct IH as [->|(items0 & item0 & H1 & H2 & H3 & H4 & H5 & H6)].
  - exists items, item. split_and!; try done. apply Reached_root.
  - exists items0, item0. split_and!; try done. by eapply Reached_child.
Qed.

(** The steps of a walk only add to what was yielded, and a step that fails
    leaves a failure. *)
Lemma walk_fold_grows {A : Type} (f : list Event * option (list string) → A →
                                     list Event * option (list string))
    (l : list A) (acc : list Event * option (list string)) (paths : list string) :
  (∀ acc x, acc.2 = None → (f acc x).2 = None) →
  (∀ acc x ps ps', acc.2 = Some ps → (f acc x).2 = Some ps' → ps ⊆ ps') →
  (foldl f acc l).2 = Some paths →
  ∃ ps, acc.2 = Some ps ∧ ps ⊆ paths.
Proof.
  intros Hfail Hgrow. revert acc.
  induction l as [|x l IH]; intros acc Hfold; simpl in Hfold.
  { by exists paths. }
  destruct (IH _ Hfold) as (ps' & Hps' & Hsub).
  destruct (acc.2) as [ps|] eqn:Hacc.
  - exists ps. split; [done|]. etrans; [|exact Hsub]. by eapply Hgrow.
  - by rewrite (Hfail acc x Hacc) in Hps'.
Qed.

Lemma walk_fold_member {A : Type} (f : list Event * option (list string) → A →
                                      list Event * option (list string))
    (l : list A) (acc : list Event * option (list string)) (paths : list string)
    (x : A) :
  (∀ acc x, acc.2 = None → (f acc x).2 = None) →
  (∀ acc x ps ps', acc.2 = Some ps → (f acc x).2 = Some ps' → ps ⊆ ps') →
  x ∈ l →
  (foldl f acc l).2 = Some paths →
  ∃ acc' ps, (f acc' x).2 = Some ps ∧ ps ⊆ paths.
Proof.
  intros Hfail Hgrow Hx. revert acc.
  induction l as [|y l IH]; intros acc Hfold; [by apply elem_of_nil in Hx|].
  simpl in Hfold. apply elem_of_cons in Hx as [->|Hx].
  - destruct (walk_fold_grows f l _ paths Hfail Hgrow Hfold) as (ps & Hps & Hsub).
    by exists acc, ps.
  - by eapply IH.
Qed.

Lemma walk_complete (disk : gmap string (list Dirent)) (fuel : nat) :
  ∀ root paths p,
    (walk fuel disk root).2 = Some paths →
    Eligible disk root p → p ∈ paths.
Proof.
  induction fuel as [|fuel IH]; intros root paths p Hwalk Hp; [done|].
  simpl in Hwalk. destruct (disk !! root) as [items|] eqn:Hitems; [|done].
  match type of Hwalk with
  | (foldl ?f _ _).2 = _ => set (step := f) in *
  end.
  assert (∀ acc x, acc.2 = None → (step acc x).2 = None) as Hfail.
  { by intros [evs [ps|]] x. }
  assert (∀ acc x ps ps', acc.2 = Some ps → (step acc x).2 = Some ps' →
                          ps ⊆ ps') as Hgrow.
  { intros [evs [ps0|]] x ps ps' [= <-]. unfold step.
    destruct (isFile x).
    - destruct (_ || _); intros [= <-]; set_solver.
    - destruct (isDirectory x); [|by intros [= <-]].
      case_bool_decide; [|by intros [= <-]].
      destruct (walk fuel disk _) as [evs' [sub|]]; [|done].
      intros [= <-]. set_solver. }
  destruct Hp as (folder & items' & item & Hreached & Hitems' & Hitem & Hfile
                  & Hname & Hpath).
  subst p.
  apply Reached_first in Hreached
    as [->|(items0 & item0 & H1 & H2 & H3 & H4 & H5 & H6)].
  - assert (items' = items) as -> by congruence.
    destruct (walk_fold_member step items _ paths item Hfail Hgrow Hitem Hwalk)
      as ([evs [ps0|]] & ps & Hstep & Hsub); [|done].
    apply Hsub. revert Hstep. unfold step. rewrite Hfile.
    pose proof (proj2 (orb_true_iff _ _) Hname) as Hor. rewrite Hor.
    intros [= <-]. apply elem_of_app. right. by left.
  - assert (items0 = items) as -> by congruence.
    destruct (walk_fold_member step items _ paths item0 Hfail Hgrow H2 Hwalk)
      as ([evs [ps0|]] & ps & Hstep & Hsub); [|done].
    apply Hsub. revert Hstep. unfold step. rewrite H3, H4.
    rewrite bool_decide_eq_true_2 by done.
    destruct (walk fuel disk (Path.join [root; name item0]))
      as [evs' [sub|]] eqn:Hsubwalk; [|done].
    intros [= <-]. apply elem_of_app. right.
    apply (IH (Path.join [root; name item0])); [by rewrite Hsubwalk|].
    by exists folder, items', item.
Qed.

(** X7. When a walk succeeds, the paths it yields are exactly the eligible
    ones: the path of every file entry named [*.ts] or [*.tsx], in the root
    folder or in a folder reached without entering [node_modules], is
    yielded, and nothing else is. *)
Theorem walk_exact (disk : gmap string (list Dirent)) (root : string)
    (fuel : nat) (paths : list string) (p : string) :
  (walk fuel disk root).2 = Some paths →
  p ∈ paths ↔ Eligible disk root p.
Proof.
  intros Hwalk. split.
  - intros Hp.
    destruct (walk_walked disk root fuel root (Reached_root _ _)) as [_ H].
    by eapply H.
  - by apply (walk_complete disk fuel).
Qed.

Lemma walk_exact_witness :
  ("/proj/src/node_modules/x.ts"
     ∉ ["/proj/src/m.ts"; "/proj/src/lib/b.tsx"])
  ∧ ¬ Eligible disk_tree "/proj/src" "/proj/src/node_modules/x.ts".
Proof.
  split; [in_index|].
  intros H.
  apply (walk_exact disk_tree "/proj/src" 3
           ["/proj/src/m.ts"; "/proj/src/lib/b.tsx"]) in H; [|reflexivity].
  revert H. in_index.
Defined.

Lemma normalizeString_last (init : list string) (n : string) (allow : bool) :
  plain n →
  ∃ y, String.concat "/"
         (rev (fold_left (Path.segment allow) (init ++ [n]) []))
       = y +:+ n.
Proof.
  intros Hn. rewrite fold_left_app. cbn [fold_left].
  rewrite segment_plain by done. cbn [rev].
  destruct (rev (fold_left (Path.segment allow) init [])) as [|a l] eqn:Hrev.
  - by exists "".
  - exists (String.concat "/" (a :: l) +:+ "/").
    by rewrite concat_snoc, app_assoc_str.
Qed.

(** [join(folder, name)] ends with the name. *)
Lemma join_last (folder n : string) :
  plain n → ∃ x, Path.join [folder; n] = x +:+ n.
Proof.
  intros Hn. pose proof Hn as (Hne & _ & _ & Hlacks).
  assert (∃ init, Path.split
                    (String.concat "/" (filter (λ arg, arg ≠ "") [folder; n]))
                  = init ++ [n]) as [init Hsplit].
  { rewrite !filter_cons, filter_nil. rewrite (decide_True (P := n ≠ "")) by done.
    destruct (decide (folder ≠ "")).
    - exists (Path.split folder). simpl String.concat.
      by rewrite split_app_slash, (split_lacks n).
    - exists []. simpl. by apply split_lacks. }
  assert (Str.endsWith (String.concat "/" (filter (λ arg, arg ≠ "") [folder; n]))
            "/" = false) as Htrail.
  { rewrite !filter_cons, filter_nil. rewrite (decide_True (P := n ≠ "")) by done.
    destruct (decide (folder ≠ "")); simpl String.concat.
    - rewrite <- app_assoc_str, endsWith_slash_app by done.
      by apply endsWith_lacks.
    - by apply endsWith_lacks. }
  assert (String.concat "/" (filter (λ arg, arg ≠ "") [folder; n]) ≠ "")
    as Hnonempty.
  { rewrite !filter_cons, filter_nil. rewrite (decide_True (P := n ≠ "")) by done.
    destruct (decide (folder ≠ "")); simpl String.concat; [by destruct folder|done]. }
  unfold Path.join.
  destruct (filter _ _) as [|a l] eqn:Hfilter; [done|].
  rewrite normalize_nonempty by done. cbv zeta.
  rewrite Htrail. unfold Path.normalizeString. rewrite Hsplit.
  destruct (normalizeString_last init n
              (negb (Str.startsWith (String.concat "/" (a :: l)) "/")) Hn)
    as [y ->].
  rewrite decide_False by (by destruct y, n).
  eexists. by rewrite app_empty_r, <- app_assoc_str.
Qed.

Lemma endsWith_char_app (c : ascii) (a b : string) :
  b ≠ "" → Str.endsWith (a +:+ b) (String c "") = Str.endsWith b (String c "").
Proof.
  intros Hb. induction a as [|d a IH]; [done|].
  rewrite app_String, endsWith_unfold, IH.
  destruct (decide _) as [Heq|]; [|done].
  exfalso. injection Heq as _ Heq. by destruct a, b.
Qed.

Section IndexedFiles.
Context {toolchain : Toolchain}.

(** X8. With entry names as [readdir] returns them, every path a walk yields
    ends in [.ts] or [.tsx], and for such a path the one-letter test of line
    99 picks the TSX dialect exactly for the [.tsx] files. *)
Theorem indexed_file_kind (disk : gmap string (list Dirent)) (root : string)
    (fuel : nat) (paths : list string) (p text : string) :
  plainNames disk →
  (walk fuel disk root).2 = Some paths → p ∈ paths →
  (Str.endsWith p ".ts" = true ∨ Str.endsWith p ".tsx" = true)
  ∧ parseFile p text
    = createSourceFile p (markBlankLines text)
        (if Str.endsWith p ".tsx" then TSX else TS).
Proof.
  intros Hplain Hwalk Hp.
  destruct (walk_walked disk root fuel root (Reached_root _ _)) as [_ H].
  destruct (H paths Hwalk p Hp)
    as (folder & items & item & _ & Hitems & Hitem & _ & Hname & ->).
  destruct (join_last folder (name item) (Hplain _ _ _ Hitems Hitem)) as [x ->].
  unfold parseFile. destruct Hname as [Hts|Htsx].
  - apply endsWith_spec in Hts as [q ->]. split.
    + left. rewrite <- app_assoc_str. apply endsWith_app.
    + rewrite <- app_assoc_str.
      rewrite (endsWith_char_app "x" (x +:+ q) ".ts") by done.
      replace (Str.endsWith ((x +:+ q) +:+ ".ts") ".tsx") with false; [done|].
      symmetry. apply not_true_is_false. intros [r Hr]%endsWith_spec.
      apply (f_equal String.rev) in Hr. revert Hr.
      generalize (x +:+ q). intros s Hr.
      assert (∀ a b, String.rev (a +:+ b) = String.rev b +:+ String.rev a)
        as Hrev.
      { intros a b. unfold String.rev.
        assert (∀ u v w, String.rev_app (u +:+ v) w
                         = String.rev_app v (String.rev_app u w)) as Hgen.
        { induction u as [|c u IHu]; intros v w; [done|].
          rewrite app_String. simpl. apply IHu. }
        rewrite Hgen.
        assert (∀ u v w, String.rev_app u (v +:+ w)
                         = String.rev_app u v +:+ w) as Happ.
        { induction u as [|c u IHu]; intros v w; [done|].
          simpl. by rewrite <- IHu. }
        by rewrite <- Happ. }
      rewrite !Hrev in Hr. by vm_compute in Hr.
  - apply endsWith_spec in Htsx as [q ->]. split.
    + right. rewrite <- app_assoc_str. apply endsWith_app.
    + rewrite <- app_assoc_str.
      rewrite (endsWith_char_app "x" (x +:+ q) ".tsx") by done.
      by rewrite endsWith_app.
Qed.
End IndexedFiles.

Lemma disk_tree_plain : plainNames disk_tree.
Proof.
  intros folder items item Hl Hi. unfold disk_tree in Hl.
  repeat (apply lookup_insert_Some in Hl as [[<- <-]|[_ Hl]]);
    try (apply lookup_singleton_Some in Hl as [<- <-]);
    repeat (apply elem_of_cons in Hi as [->|Hi]);
    try (by apply elem_of_nil in Hi);
    by split_and!.
Qed.

Lemma indexed_file_kind_witness :
  parseFile (toolchain := toy) "/proj/src/lib/b.tsx" "./a"
  = createSourceFile (Toolchain := toy) "/proj/src/lib/b.tsx"
      (markBlankLines "./a") TSX.
Proof.
  apply (indexed_file_kind (toolchain := toy) disk_tree "/proj/src" 3
           ["/proj/src/m.ts"; "/proj/src/lib/b.tsx"]);
    [apply disk_tree_plain|reflexivity|in_index].
Defined.

(** ** The sentinel comment *)

Lemma includes_unfold (s p : string) :
  Str.includes s p =
    if Str.startsWith s p then true
    else match s with
         | EmptyString => false
         | String _ s' => Str.includes s' p
         end.
Proof. by destruct s. Qed.

Lemma restoreBlankLines_match (rest : string) :
  restoreBlankLines (sentinel +:+ rest) = LF +:+ restoreBlankLines rest.
Proof.
  unfold restoreBlankLines.
  change sentinel with (String "/" "** THIS_IS_A_NEWLINE **/") at 1 2.
  by rewrite replaceAll_match.
Qed.

Lemma restoreBlankLines_pass (c : ascii) (rest : string) :
  Str.startsWith (String c rest) sentinel = false →
  restoreBlankLines (String c rest) = String c (restoreBlankLines rest).
Proof. apply replaceAll_pass. Qed.

(** A text without line feed that starts the restored text starts the text. *)
Lemma startsWith_restoreBlankLines (p text : string) :
  Str.lacks "010" p = true →
  Str.startsWith (restoreBlankLines text) p = true →
  Str.startsWith text p = true.
Proof.
  revert text. induction p as [|a p IH]; intros text Hp; [done|].
  cbn [Str.lacks] in Hp. destruct (decide (a = "010"%char)) as [|Ha]; [done|].
  destruct text as [|d text]; [done|].
  destruct (Str.startsWith (String d text) sentinel) eqn:Hs.
  - apply startsWith_spec in Hs as [rest ->].
    rewrite restoreBlankLines_match.
    change (LF +:+ restoreBlankLines rest)
      with (String "010" (restoreBlankLines rest)).
    cbn [Str.startsWith]. by rewrite decide_False by done.
  - rewrite restoreBlankLines_pass by done. cbn [Str.startsWith].
    destruct (decide (d = a)); [|done]. by apply IH.
Qed.

Lemma restoreBlankLines_clean_aux (n : nat) :
  ∀ text, String.length text ≤ n →
          Str.includes (restoreBlankLines text) sentinel = false.
Proof.
  induction n as [n IH] using lt_wf_ind. intros text Hlen.
  destruct text as [|c text]; [done|].
  destruct (Str.startsWith (String c text) sentinel) eqn:Hs.
  - apply startsWith_spec in Hs as [rest Hrest]. rewrite Hrest.
    rewrite restoreBlankLines_match.
    change (LF +:+ restoreBlankLines rest)
      with (String "010" (restoreBlankLines rest)).
    rewrite includes_unfold.
    change (Str.startsWith (String "010" (restoreBlankLines rest)) sentinel)
      with false.
    cbv iota. apply (IH (String.length rest)); [|done].
    apply (f_equal String.length) in Hrest.
    rewrite length_app_str in Hrest. simpl in Hrest. simpl in Hlen. lia.
  - rewrite restoreBlankLines_pass by done. rewrite includes_unfold.
    destruct (Str.startsWith (String c (restoreBlankLines text)) sentinel)
      eqn:Hs'.
    { rewrite <- restoreBlankLines_pass in Hs' by done.
      apply startsWith_restoreBlankLines in Hs'; [congruence|done]. }
    apply (IH (String.length text)); [|done]. simpl in Hlen. lia.
Qed.

(** X9. Whatever the printer produced, no sentinel comment is left in the
    text after the substitution of line 105. *)
Theorem restoreBlankLines_clean (printed : string) :
  Str.includes (restoreBlankLines printed) sentinel = false.
Proof. by apply (restoreBlankLines_clean_aux (String.length printed)). Qed.

(** X10. The round trip of the blank lines succeeds exactly for the texts
    that do not contain the sentinel comment: a source text that holds it is
    never given back as it was. *)
Theorem sentinel_roundtrip_iff (text : string) :
  restoreBlankLines (markBlankLines text) = text
  ↔ Str.includes text sentinel = false.
Proof.
  split.
  - intros H. rewrite <- H.
    by apply (restoreBlankLines_clean_aux
                (String.length (markBlankLines text))).
  - intros H. by apply (restore_mark (String.length text)).
Qed.

Lemma includes_lacks_app (a t : string) :
  Str.lacks "010" a = true →
  Str.includes (a +:+ t) (LF +:+ LF) = Str.includes t (LF +:+ LF).
Proof.
  induction a as [|c a IH]; [done|]. cbn [Str.lacks].
  destruct (decide (c = "010"%char)) as [|Hc]; [done|]. intros Ha.
  rewrite app_String, includes_unfold.
  change (LF +:+ LF) with (String "010" (String "010" "")) at 1.
  cbn [Str.startsWith]. rewrite decide_False by done. by apply IH.
Qed.

Lemma markBlankLines_no_blank_aux (n : nat) :
  ∀ text, String.length text ≤ n →
          Str.includes (markBlankLines text) (LF +:+ LF) = false.
Proof.
  induction n as [n IH] using lt_wf_ind. intros text Hlen.
  destruct text as [|c text]; [done|].
  destruct (Str.startsWith (String c text) (LF +:+ LF)) eqn:Hblank.
  - apply startsWith_spec in Hblank as [rest Hrest].
    rewrite app_assoc_str in Hrest. rewrite Hrest, markBlankLines_blank.
    change (LF +:+ sentinel +:+ markBlankLines rest)
      with (String "010" (sentinel +:+ markBlankLines rest)).
    rewrite includes_unfold.
    change (Str.startsWith (String "010" (sentinel +:+ markBlankLines rest))
              (LF +:+ LF)) with false.
    cbv iota. rewrite includes_lacks_app by done.
    apply (IH (String.length rest)); [|done].
    apply (f_equal String.length) in Hrest.
    rewrite !length_app_str in Hrest. simpl in Hrest. simpl in Hlen. lia.
  - rewrite markBlankLines_pass by done. rewrite includes_unfold.
    assert (Str.includes (markBlankLines text) (LF +:+ LF) = false) as Hrest.
    { apply (IH (String.length text)); [|done]. simpl in Hlen. lia. }
    destruct (Str.startsWith (String c (markBlankLines text)) (LF +:+ LF))
      eqn:Hs; [|done].
    exfalso. revert Hs Hblank.
    change (LF +:+ LF) with (String "010" (String "010" "")).
    cbn [Str.startsWith]. destruct (decide (c = "010"%char)); [|done].
    destruct text as [|d text]; [done|].
    destruct (Str.startsWith (String d text) (LF +:+ LF)) eqn:Hd.
    + apply startsWith_spec in Hd as [rest Hd].
      rewrite app_assoc_str in Hd.
      change (LF +:+ LF +:+ rest) with (String "010" (String "010" rest)) in Hd.
      injection Hd as -> ->. by rewrite decide_True.
    + rewrite markBlankLines_pass by done.
      by destruct (decide (d = "010"%char)).
Qed.

(** X11. After the substitution of line 96 the text handed to the parser has
    no blank line: no two line feeds follow each other in it. *)
Theorem markBlankLines_no_blank (text : string) :
  Str.includes (markBlankLines text) (LF +:+ LF) = false.
Proof. by apply (markBlankLines_no_blank_aux (String.length text)). Qed.

(** ** The run driver *)

Section DriverProperties.
Context {toolchain : Toolchain}.
Variable values : Values.
Variable prettierConfig : option Json.

Lemma count_app (f : Event → bool) (evs evs' : list Event) :
  count f (evs ++ evs') = count f evs + count f evs'.
Proof. unfold count. by rewrite List.filter_app, length_app. Qed.

Lemma events_counts index disk path q :
  count (isReadOf q) (events values prettierConfig index disk path)
  = (if decide (q = path) then 1 else 0)
  ∧ count (isWriteTo q) (events values prettierConfig index disk path)
    ≤ (if decide (q = path) then 1 else 0).
Proof.
  unfold events, count.
  destruct (disk !! path) as [file|];
    [destruct (output _ _ _ _ _)|]; simpl;
    destruct (decide (q = path)) as [->|Hne];
    rewrite ?bool_decide_eq_true_2 by done;
    rewrite ?bool_decide_eq_false_2 by done; simpl; lia.
Qed.

(** X12. In a run over distinct paths every file of the run is read exactly
    once and written at most once, and a file that is not of the run is
    neither read nor written, whatever the order of the events is. *)
Theorem callbacks_read_once (order : list string) (g : Globals) (p : Process) :
  NoDup order →
  let p' := (runAll values prettierConfig order (g, p)).2 in
  ∃ evs,
    trace p' = trace p ++ evs
    ∧ ∀ q, count (isReadOf q) evs = (if decide (q ∈ order) then 1 else 0)
           ∧ count (isWriteTo q) evs ≤ (if decide (q ∈ order) then 1 else 0).
Proof.
  intros Hnodup p'.
  destruct (runAll_spec values prettierConfig order Hnodup g p)
    as (_ & _ & _ & Ht & _).
  fold p' in Ht. eexists. split; [exact Ht|]. intros q.
  generalize (visited g) (files p). intros index disk. clear Ht p'.
  induction Hnodup as [|a l Ha Hl IH]; [done|].
  cbn [flat_map]. rewrite !count_app.
  destruct (events_counts index disk a q) as [Hr Hw]. destruct IH as [IHr IHw].
  destruct (decide (q = a)) as [->|Hne].
  - rewrite (decide_True (P := a ∈ a :: l)) by left.
    rewrite (decide_False (P := a ∈ l)) in IHr, IHw by done. lia.
  - destruct (decide (q ∈ l)) as [Hq|Hq].
    + rewrite (decide_True (P := q ∈ a :: l)) by (by right). lia.
    + rewrite (decide_False (P := q ∈ a :: l)); [lia|].
      by intros [?|?]%elem_of_cons.
Qed.

(** X13. A callback that fails is isolated: where the file cannot be read, or
    the formatter throws on the printed text, nothing is written to that path
    and its content stays; every file of the run is still settled from its
    own content, as if the failure had not happened. *)
Theorem failure_isolated (order : list string) (g : Globals) (p : Process)
    (path : string) :
  NoDup order →
  (files p !! path = None
   ∨ ∃ file config,
       files p !! path = Some file ∧ prettierConfig = Some config
       ∧ prettier_format
           (restoreBlankLines
              (printFile (transformed values (visited g) path file).1))
           config = None) →
  let p' := (runAll values prettierConfig order (g, p)).2 in
  files p' !! path = files p !! path
  ∧ (∀ q, q ∈ order →
          files p' !! q
          = settled values prettierConfig (visited g) (files p) q)
  ∧ ∃ evs, trace p' = trace p ++ evs ∧ ∀ data, WriteFile path data ∉ evs.
Proof.
  intros Hnodup Hfail p'.
  destruct (runAll_spec values prettierConfig order Hnodup g p)
    as (_ & _ & _ & Ht & Hf).
  fold p' in Ht, Hf.
  assert (∀ file, files p !! path = Some file →
                  output values prettierConfig (visited g) path file = None)
    as Hout.
  { intros file Hfile. destruct Hfail as [?|(f & c & Hf' & -> & Hfmt)];
      [congruence|].
    assert (f = file) as -> by congruence. unfold output.
    destruct (hasUpdate _); [exact Hfmt|done]. }
  split_and!.
  - rewrite Hf. case_decide; [|done]. unfold settled.
    destruct (files p !! path) as [file|] eqn:Hfile; [|done].
    simpl. by rewrite (Hout file).
  - intros q Hq. by rewrite Hf, decide_True.
  - eexists. split; [exact Ht|].
    intros data Hin. apply list_elem_of_In, in_flat_map in Hin.
    destruct Hin as (x & _ & Hin%list_elem_of_In).
    apply elem_of_events in Hin as (<- & file & Hfile & Hout').
    rewrite (Hout file Hfile) in Hout'. done.
Qed.

(** X14. Without a formatter, no text written by a run contains the sentinel
    comment. *)
Theorem written_text_clean (order : list string) (g : Globals) (p : Process)
    (q data : string) :
  NoDup order → prettierConfig = None →
  let p' := (runAll values prettierConfig order (g, p)).2 in
  ∀ evs, trace p' = trace p ++ evs → WriteFile q data ∈ evs →
         Str.includes data sentinel = false.
Proof.
  intros Hnodup Hcfg p' evs Hevs Hin.
  destruct (runAll_spec values prettierConfig order Hnodup g p)
    as (_ & _ & _ & Ht & _).
  fold p' in Ht. rewrite Ht in Hevs. apply app_inv_head in Hevs as <-.
  apply list_elem_of_In, in_flat_map in Hin.
  destruct Hin as (x & _ & Hin%list_elem_of_In).
  apply elem_of_events in Hin as (<- & file & Hfile & Hout).
  revert Hout. unfold output. rewrite Hcfg.
  destruct (hasUpdate _); [|done]. intros [= <-].
  apply (restoreBlankLines_clean_aux
           (String.length (printFile (transformed values (visited g) q file).1))).
  done.
Qed.
End DriverProperties.

Lemma callbacks_read_once_witness :
  ∃ evs,
    trace (runAll (toolchain := toy) v0 None order0
             (globals index0 "", proc0)).2
    = trace proc0 ++ evs
    ∧ count (isReadOf "/proj/src/m.ts") evs = 1
    ∧ count (isWriteTo "/proj/src/notes.md") evs ≤ 0.
Proof.
  destruct (callbacks_read_once (toolchain := toy) v0 None order0
              (globals index0 "") proc0) as (evs & Ht & Hc); [in_index|].
  exists evs. split; [exact Ht|]. split.
  - exact (proj1 (Hc "/proj/src/m.ts")).
  - exact (proj2 (Hc "/proj/src/notes.md")).
Defined.

Lemma failure_isolated_witness :
  let p' := (runAll (toolchain := toy) v0 None
               ["/proj/src/gone.ts"; "/proj/src/m.ts"]
               (globals index0 "", proc0)).2 in
  files p' !! "/proj/src/gone.ts" = None
  ∧ files p' !! "/proj/src/m.ts" = Some "./a.js".
Proof.
  destruct (failure_isolated (toolchain := toy) v0 None
              ["/proj/src/gone.ts"; "/proj/src/m.ts"]
              (globals index0 "") proc0 "/proj/src/gone.ts")
    as (H1 & H2 & _); [in_index|by left|].
  split; [exact H1|]. rewrite H2 by in_index. reflexivity.
Defined.

Lemma written_text_clean_witness :
  Str.includes "./a.js" sentinel = false.
Proof.
  apply (written_text_clean (toolchain := toy) v0 None order0
           (globals index0 "") proc0 "/proj/src/m.ts" "./a.js")
    with (evs := [ReadFile "/proj/src/m.ts";
                  WriteFile "/proj/src/m.ts" "./a.js";
                  ReadFile "/proj/src/a.ts"]);
    [in_index|reflexivity|reflexivity|in_index].
Defined.

(** ** The whole program *)

Section MainProperties.
Context {toolchain : Toolchain}.

Lemma migrate_spec (fuel : nat) (values : Values) (workingFolder : string)
    (prettierConfig : option Json) (p : Process) :
  let r := migrate fuel values workingFolder prettierConfig p in
  cwd r.2 = cwd p ∧ dirs r.2 = dirs p
  ∧ match (walk fuel (dirs p) workingFolder).2 with
    | None => r.1 = Uncaught ∧ files r.2 = files p
    | Some paths =>
        r.1 = Exit 0
        ∧ ∀ q, files r.2 !! q
               = if decide (q ∈ paths)
                 then settled values prettierConfig (list_to_set paths)
                        (files p) q
                 else files p !! q
    end.
Proof.
  unfold migrate. cbn [dirs emit].
  destruct (walk fuel (dirs p) workingFolder) as [reads [paths|]];
    cbn [fst snd]; [|done].
  set (index := list_to_set paths : gset string).
  set (g := {| visited := index; currentVisitingFile := ""; hasUpdate := false |}).
  set (p1 := emits reads _).
  destruct (runAll_spec values prettierConfig (elements index)
              (NoDup_elements index) g p1) as (_ & Hc & Hd & _ & Hf).
  split_and!; try done. intros q. rewrite Hf.
  destruct (decide (q ∈ paths)) as [Hq|Hq].
  - rewrite decide_True; [done|]. apply elem_of_elements.
    by apply elem_of_list_to_set.
  - rewrite decide_False; [done|]. intros Hin. apply Hq.
    apply elem_of_elements in Hin. by apply elem_of_list_to_set in Hin.
Qed.

Lemma settled_is_Some values prettierConfig index disk q :
  is_Some (settled values prettierConfig index disk q) ↔ is_Some (disk !! q).
Proof.
  unfold settled. destruct (disk !! q); simpl; split; intros [? ?]; eauto; done.
Qed.

Lemma migrate_frame (fuel : nat) (values : Values) (workingFolder : string)
    (prettierConfig : option Json) (p : Process) :
  let r := migrate fuel values workingFolder prettierConfig p in
  cwd r.2 = cwd p ∧ dirs r.2 = dirs p
  ∧ dom (files r.2) = dom (files p)
  ∧ ∀ q, files r.2 !! q ≠ files p !! q →
         Eligible (dirs p) workingFolder q ∧ is_Some (files p !! q).
Proof.
  intros r. destruct (migrate_spec fuel values workingFolder prettierConfig p)
    as (Hc & Hd & H). fold r in Hc, Hd, H.
  destruct (walk fuel (dirs p) workingFolder).2 as [paths|] eqn:Hwalk.
  - destruct H as [_ Hf]. split_and!; try done.
    + apply set_eq. intros q. rewrite !elem_of_dom, Hf.
      case_decide; [apply settled_is_Some|done].
    + intros q Hq. rewrite Hf in Hq. case_decide as Hin; [|done]. split.
      * destruct (walk_walked (dirs p) workingFolder fuel workingFolder
                    (Reached_root _ _)) as [_ Hel]. by eapply Hel.
      * destruct (files p !! q) eqn:Hfile; [by eexists|].
        exfalso. apply Hq. unfold settled. by rewrite Hfile.
  - destruct H as [_ Hf]. rewrite Hf. by split_and!.
Qed.

(** X15. Whatever its arguments and the state of the disk, the program leaves
    the directories alone, creates and deletes no file, and changes the
    content of a file only if it was started with one folder and the file is
    an eligible file under that folder: named [*.ts] or [*.tsx] and reached
    without entering [node_modules]. *)
Theorem main_writes_only_indexed (fuel : nat) (positionals : list string)
    (values : Values) (p : Process) :
  let r := main fuel positionals values p in
  cwd r.2 = cwd p ∧ dirs r.2 = dirs p
  ∧ dom (files r.2) = dom (files p)
  ∧ ∀ q, files r.2 !! q ≠ files p !! q →
         ∃ folder,
           positionals = [folder]
           ∧ Eligible (dirs p) (Path.join [cwd p; folder]) q.
Proof.
  intros r. subst r. unfold main.
  destruct positionals as [|folder [|? ?]]; try (by split_and!).
  assert (∀ config,
    let r := migrate fuel values (Path.join [cwd p; folder]) config p in
    cwd r.2 = cwd p ∧ dirs r.2 = dirs p ∧ dom (files r.2) = dom (files p)
    ∧ ∀ q, files r.2 !! q ≠ files p !! q →
           ∃ folder0, [folder] = [folder0]
                      ∧ Eligible (dirs p) (Path.join [cwd p; folder0]) q)
    as Hmigrate.
  { intros config.
    destruct (migrate_frame fuel values (Path.join [cwd p; folder]) config p)
      as (H1 & H2 & H3 & H4).
    split_and!; try done. intros q Hq. exists folder. split; [done|].
    by apply H4. }
  destruct (prettier values) as [configPath|]; [|apply Hmigrate].
  destruct (decide (configPath = "")); [apply Hmigrate|].
  cbn [cwd files emit].
  destruct (files p !! Path.join [cwd p; configPath]) as [text|];
    [|by split_and!].
  destruct (JSON_parse text) as [config|]; [|by split_and!].
  destruct (migrate_frame fuel values (Path.join [cwd p; folder])
              (if truthy config then Some config else None)
              (emit (ReadFile (Path.join [cwd p; configPath])) p))
    as (H1 & H2 & H3 & H4).
  split_and!; try done. intros q Hq. exists folder. split; [done|].
  by apply H4.
Qed.

(** X16. Started with one folder and no formatter, on a disk where the walk
    succeeds, the program ends with status 0 and has settled exactly the
    files the walk yielded, each from its own content and against the index
    of all of them; every other file is as it was. *)
Theorem main_settles_index (fuel : nat) (folder : string) (values : Values)
    (p : Process) (paths : list string) :
  prettier values = None →
  (walk fuel (dirs p) (Path.join [cwd p; folder])).2 = Some paths →
  let r := main fuel [folder] values p in
  r.1 = Exit 0
  ∧ ∀ q, files r.2 !! q
         = if decide (q ∈ paths)
           then settled values None (list_to_set paths) (files p) q
           else files p !! q.
Proof.
  intros Hcfg Hwalk r. subst r. unfold main. rewrite Hcfg.
  destruct (migrate_spec fuel values (Path.join [cwd p; folder]) None p)
    as (_ & _ & H).
  by rewrite Hwalk in H.
Qed.

(** X17. A start-up failure aborts the program before any file is processed.
    Where the formatter configuration cannot be read or parsed, the program
    ends with an uncaught error after the one read of the configuration: no
    line is logged and no directory is read.  Where the target folder cannot
    be read, it ends with an uncaught error after the [Working on] line and
    the one [readdir].  In both cases every file is as it was. *)
Theorem startup_failure_aborts (fuel : nat) (folder : string) (values : Values)
    (p : Process) :
  (∀ configPath,
     prettier values = Some configPath → configPath ≠ "" →
     (files p !! Path.join [cwd p; configPath] = None
      ∨ ∃ text, files p !! Path.join [cwd p; configPath] = Some text
                ∧ JSON_parse text = None) →
     main fuel [folder] values p
     = (Uncaught, emit (ReadFile (Path.join [cwd p; configPath])) p))
  ∧ (prettier values = None ∨ prettier values = Some "" →
     dirs p !! Path.join [cwd p; folder] = None →
     main (S fuel) [folder] values p
     = (Uncaught,
        emits [Readdir (Path.join [cwd p; folder])]
          (emit (ConsoleLog ("Working on " +:+ Path.join [cwd p; folder])) p))).
Proof.
  split.
  - intros configPath Hcfg Hne Hfail. unfold main. rewrite Hcfg.
    rewrite decide_False by done. cbn [cwd files emit].
    destruct Hfail as [->|(text & -> & ->)]; done.
  - intros Hcfg Hdir.
    assert (main (S fuel) [folder] values p
            = migrate (S fuel) values (Path.join [cwd p; folder]) None p) as ->.
    { unfold main. by destruct Hcfg as [->| ->]. }
    unfold migrate. cbn [dirs emit walk]. by rewrite Hdir.
Qed.

End MainProperties.

Lemma main_writes_only_indexed_witness :
  ∃ folder,
    ["src"] = [folder]
    ∧ Eligible (dirs proc0) (Path.join [cwd proc0; folder]) "/proj/src/m.ts".
Proof.
  destruct (main_writes_only_indexed (toolchain := toy) 3 ["src"] v0 proc0)
    as (_ & _ & _ & H).
  apply H. vm_compute. discriminate.
Defined.

Lemma main_settles_index_witness :
  (main (toolchain := toy) 3 ["src"] v0 proc0).1 = Exit 0.
Proof.
  apply (main_settles_index (toolchain := toy) 3 "src" v0 proc0
           ["/proj/src/m.ts"; "/proj/src/a.ts"]); reflexivity.
Defined.

Lemma startup_failure_aborts_witness :
  main (toolchain := toy) 3 ["src"]
    {| jsx := false; prettier := Some ".prettierrc" |} proc0
  = (Uncaught, emit (ReadFile "/proj/.prettierrc") proc0)
  ∧ main (toolchain := toy) 3 ["lib"] v0 proc0
    = (Uncaught,
       emits [Readdir "/proj/lib"] (emit (ConsoleLog "Working on /proj/lib") proc0)).
Proof.
  split.
  - destruct (startup_failure_aborts (toolchain := toy) 3 "src"
                {| jsx := false; prettier := Some ".prettierrc" |} proc0)
      as [H _].
    apply (H ".prettierrc"); [reflexivity|done|by left].
  - destruct (startup_failure_aborts (toolchain := toy) 2 "lib" v0 proc0)
      as [_ H].
    apply H; [by left|reflexivity].
Defined.

Lemma resolver_only_appends_witness :
  ∃ spec suffix,
    Some (StringLiteral "./a") = Some (StringLiteral spec)
    ∧ suffix ∈ suffixes
    ∧ updateImportPath v0 (Some (StringLiteral "./a")) g_dir
      = (Some (StringLiteral (spec +:+ suffix)), touched g_dir).
Proof.
  destruct (resolver_only_appends v0 (Some (StringLiteral "./a")) g_dir)
    as [H|(spec & suffix & H1 & _ & _ & H2 & _ & H3)].
  - vm_compute in H. discriminate H.
  - by exists spec, suffix.
Defined.

Lemma sentinel_roundtrip_iff_witness :
  restoreBlankLines (markBlankLines sentinel) ≠ sentinel.
Proof.
  intros H. apply sentinel_roundtrip_iff in H. vm_compute in H. discriminate H.
Defined.
